(** * index-microbench: order-preserving composite keys (indexkey.h)

    A shallow embedding of [GenericKey<keySize>] and of the functors
    [GenericComparator], [GenericEqualityChecker] and [GenericHasher],
    followed by the properties that the specification states about them.

    Conventions.
    - A byte ([unsigned char]) is a [Z] in [0, 256); integers of the eight
      supported types are [Z] values in the range of their type, conversions
      between them ([static_cast]) are written out as wrap-around.
    - The key owns a byte array; member functions are state transformers over
      the key ([method]), which can return, raise a C++ exception, or run into
      undefined behaviour (an access outside the array).
    - The code is written against <endian.h>; the byte order of the host is a
      parameter of the development and every result holds for both. *)

From Stdlib Require Import Ascii String ZArith List Lia Bool.
Import ListNotations.
Local Open Scope Z_scope.

(** ** Integer types accepted by the template member functions *)

Inductive IntType : Set :=
| int8_t | int16_t | int32_t | int64_t
| uint8_t | uint16_t | uint32_t | uint64_t.

Definition sizeof (ty : IntType) : nat :=
  match ty with
  | int8_t | uint8_t => 1
  | int16_t | uint16_t => 2
  | int32_t | uint32_t => 4
  | int64_t | uint64_t => 8
  end.

Definition is_signed (ty : IntType) : bool :=
  match ty with
  | int8_t | int16_t | int32_t | int64_t => true
  | _ => false
  end.

Definition bit_width (ty : IntType) : Z := Z.of_nat (sizeof ty) * 8.

(** The values of a type. *)
Definition representable (ty : IntType) (v : Z) : Prop :=
  if is_signed ty
  then - 2 ^ (bit_width ty - 1) <= v < 2 ^ (bit_width ty - 1)
  else 0 <= v < 2 ^ bit_width ty.

Definition min_value (ty : IntType) : Z :=
  if is_signed ty then - 2 ^ (bit_width ty - 1) else 0.

Definition max_value (ty : IntType) : Z :=
  if is_signed ty then 2 ^ (bit_width ty - 1) - 1 else 2 ^ bit_width ty - 1.

(** [static_cast<ty>(v)]: reduction modulo 2^width into the range of [ty]. *)
Definition static_cast (ty : IntType) (v : Z) : Z :=
  if is_signed ty
  then (v + 2 ^ (bit_width ty - 1)) mod 2 ^ bit_width ty - 2 ^ (bit_width ty - 1)
  else v mod 2 ^ bit_width ty.

(** ** Bytes of an integer object *)

Inductive byte_order : Set := LittleEndian | BigEndian.

(** The [w] low-order bytes of [x], least significant first. *)
Fixpoint to_le (w : nat) (x : Z) : list Z :=
  match w with
  | O => []
  | S w' => x mod 256 :: to_le w' (x / 256)
  end.

Fixpoint from_le (bs : list Z) : Z :=
  match bs with
  | [] => 0
  | b :: bs' => b + 256 * from_le bs'
  end.

Definition is_byte (b : Z) : Prop := 0 <= b < 256.

(** Most significant byte first. *)
Definition to_be (w : nat) (x : Z) : list Z := rev (to_le w x).
Definition from_be (bs : list Z) : Z := from_le (rev bs).

(** [bswap_16], [bswap_32], [bswap_64] of <byteswap.h>: the bytes of a
    [w]-byte unsigned integer in reverse order. *)
Definition bswap (w : nat) (x : Z) : Z := from_le (rev (to_le w x)).

(** ** Library functions on byte arrays *)

(** The array [dst] with the bytes [src] in place of those at
    [offset, offset + |src|). *)
Definition splice (dst : list Z) (offset : nat) (src : list Z) : list Z :=
  firstn offset dst ++ src ++ skipn (offset + length src) dst.

(** [memcpy(dst + offset, src, |src|)]; [None] when the destination range
    leaves the array. *)
Definition memcpy (dst : list Z) (offset : nat) (src : list Z) : option (list Z) :=
  if (offset + length src <=? length dst)%nat
  then Some (splice dst offset src)
  else None.

(** [memset(dst, c, n)] on an array of at least [n] bytes. *)
Definition memset (dst : list Z) (c : Z) (n : nat) : list Z :=
  repeat c n ++ skipn n dst.

(** [memcmp(s1, s2, n)]: the difference of the first pair of bytes that
    differ, zero when there is none.  Only the sign is specified by the C
    standard and only the sign is used below.  Both arrays hold [n] bytes
    (the arrays compared here have the same declared size). *)
Fixpoint memcmp (s1 s2 : list Z) (n : nat) : Z :=
  match n, s1, s2 with
  | S n', x :: s1', y :: s2' => if x =? y then memcmp s1' s2' n' else x - y
  | _, _, _ => 0
  end.

(** ** std::getline and std::stoul *)

Inductive exception : Set := invalid_argument | out_of_range.

Inductive result (A : Type) : Type :=
| Ok (a : A)
| Throw (e : exception).
Arguments Ok {A} a.
Arguments Throw {A} e.

Definition comma : ascii := ","%char.

(** Characters up to the first delimiter, and what follows the delimiter. *)
Fixpoint read_until (delim : ascii) (s : list ascii) : list ascii * list ascii :=
  match s with
  | [] => ([], [])
  | c :: s' =>
      if Ascii.eqb c delim then ([], s')
      else let (t, r) := read_until delim s' in (c :: t, r)
  end.

(** [getline(iss, temp, delim)]: fails (the stream converts to false) when
    nothing is left to extract; otherwise yields [temp] and the stream
    positioned after the delimiter. *)
Definition getline (iss : list ascii) (delim : ascii) : option (list ascii * list ascii) :=
  match iss with
  | [] => None
  | _ => Some (read_until delim iss)
  end.

(** [isspace] in the "C" locale. *)
Definition isspace (c : ascii) : bool :=
  let n := nat_of_ascii c in
  ((n =? 32) || ((9 <=? n) && (n <=? 13)))%nat.

Definition isdigit (c : ascii) : bool :=
  let n := nat_of_ascii c in ((48 <=? n) && (n <=? 57))%nat.

Definition digit_value (c : ascii) : Z := Z.of_nat (nat_of_ascii c) - 48.

Fixpoint skip_space (s : list ascii) : list ascii :=
  match s with
  | c :: s' => if isspace c then skip_space s' else s
  | [] => []
  end.

(** The longest prefix of decimal digits, accumulated from [acc]; [None] when
    there is no digit at all. *)
Fixpoint read_digits (s : list ascii) (acc : Z) (seen : bool) : option Z :=
  match s with
  | c :: s' =>
      if isdigit c then read_digits s' (10 * acc + digit_value c) true
      else if seen then Some acc else None
  | [] => if seen then Some acc else None
  end.

(** [unsigned long] is 64 bits wide (LP64). *)
Definition ULONG_MAX : Z := 2 ^ 64 - 1.

(** [std::stoul(str)] (base 10, as [strtoul]): leading white space, an
    optional sign, then digits; trailing characters are ignored.  A negative
    sign negates the value in [unsigned long] arithmetic. *)
Definition stoul (str : list ascii) : result Z :=
  let s := skip_space str in
  let '(neg, s) :=
    match s with
    | c :: s' =>
        if Ascii.eqb c "-"%char then (true, s')
        else if Ascii.eqb c "+"%char then (false, s')
        else (false, s)
    | [] => (false, s)
    end in
  match read_digits s 0 false with
  | None => Throw invalid_argument
  | Some v =>
      if v >? ULONG_MAX then Throw out_of_range
      else Ok (if neg then (- v) mod (ULONG_MAX + 1) else v)
  end.

(** ** class GenericKey<keySize> *)

Record GenericKey : Type := mkKey { data : list Z }.

(** What a member function call does to the key it is called on. *)
Inductive outcome (A : Type) : Type :=
| Normal (a : A) (k : GenericKey)          (* returned [a], key is now [k] *)
| Raised (e : exception) (k : GenericKey)  (* threw [e], key is now [k] *)
| Undefined.                               (* access outside [data] *)
Arguments Normal {A} a k.
Arguments Raised {A} e k.
Arguments Undefined {A}.

Definition method (A : Type) : Type := GenericKey -> outcome A.

Definition ret {A} (a : A) : method A := fun k => Normal a k.

Definition bind {A B} (m : method A) (f : A -> method B) : method B :=
  fun k =>
    match m k with
    | Normal a k' => f a k'
    | Raised e k' => Raised e k'
    | Undefined => Undefined
    end.

Definition throw {A} (e : exception) : method A := fun k => Raised e k.

Definition lift {A} (r : result A) : method A :=
  match r with
  | Ok a => ret a
  | Throw e => throw e
  end.

Notation "x <- m ;; f" := (bind m (fun x => f))
  (at level 61, m at next level, right associativity).
Notation "m ;;; f" := (bind m (fun _ => f))
  (at level 61, right associativity).

Section GenericKey.

(** Byte order of the machine the code runs on. *)
Variable host : byte_order.

(** The template parameter: number of 8-byte slots. *)
Variable keySize : nat.

Definition key_size_byte : nat := keySize * 8.

(** A key object of this instantiation: [data] has [key_size_byte] bytes. *)
Definition well_formed (k : GenericKey) : Prop :=
  length (data k) = key_size_byte /\ Forall is_byte (data k).

(** Object representation of a [w]-byte unsigned integer, and its inverse. *)
Definition object_bytes (w : nat) (x : Z) : list Z :=
  match host with
  | LittleEndian => to_le w x
  | BigEndian => to_be w x
  end.

Definition object_value (bs : list Z) : Z :=
  match host with
  | LittleEndian => from_le bs
  | BigEndian => from_be bs
  end.

(** <endian.h>: swap on a little-endian host, nothing on a big-endian one. *)
Definition htobe (w : nat) (x : Z) : Z :=
  match host with
  | LittleEndian => bswap w x
  | BigEndian => x
  end.

Definition betoh (w : nat) (x : Z) : Z :=
  match host with
  | LittleEndian => bswap w x
  | BigEndian => x
  end.

Definition TwoBytesToBigEndian (x : Z) : Z := htobe 2 x.
Definition FourBytesToBigEndian (x : Z) : Z := htobe 4 x.
Definition EightBytesToBigEndian (x : Z) : Z := htobe 8 x.
Definition TwoBytesToHostEndian (x : Z) : Z := betoh 2 x.
Definition FourBytesToHostEndian (x : Z) : Z := betoh 4 x.
Definition EightBytesToHostEndian (x : Z) : Z := betoh 8 x.

(** The eight overloads; the result has the unsigned type of the same size. *)
Definition ToBigEndian (ty : IntType) (x : Z) : Z :=
  match ty with
  | uint8_t => x
  | int8_t => static_cast uint8_t x
  | uint16_t => TwoBytesToBigEndian x
  | int16_t => TwoBytesToBigEndian (static_cast uint16_t x)
  | uint32_t => FourBytesToBigEndian x
  | int32_t => FourBytesToBigEndian (static_cast uint32_t x)
  | uint64_t => EightBytesToBigEndian x
  | int64_t => EightBytesToBigEndian (static_cast uint64_t x)
  end.

Definition ToHostEndian (ty : IntType) (x : Z) : Z :=
  match ty with
  | uint8_t => x
  | int8_t => static_cast uint8_t x
  | uint16_t => TwoBytesToHostEndian x
  | int16_t => TwoBytesToHostEndian (static_cast uint16_t x)
  | uint32_t => FourBytesToHostEndian x
  | int32_t => FourBytesToHostEndian (static_cast uint32_t x)
  | uint64_t => EightBytesToHostEndian x
  | int64_t => EightBytesToHostEndian (static_cast uint64_t x)
  end.

(** [mask = static_cast<IntType>(0x1) << (sizeof(IntType) * 8 - 1);
    return data ^ mask;] *)
Definition SignFlip (ty : IntType) (x : Z) : Z :=
  let mask := static_cast ty (Z.shiftl (static_cast ty 1) (bit_width ty - 1)) in
  static_cast ty (Z.lxor x mask).

Definition ZeroOut : method unit :=
  fun k => Normal tt (mkKey (memset (data k) 0 key_size_byte)).

(** [GenericKey()]: [ZeroOut] on storage of indeterminate content, which
    is the state the method is entered with. *)
Definition GenericKey_ctor : method unit := ZeroOut.

(** [*reinterpret_cast<const IntType *>(data + offset)]: the object whose
    bytes are those at [offset, offset + sizeof(IntType)), at any offset that
    keeps the range inside the array (no alignment is asked for). *)
Definition load (ty : IntType) (offset : nat) : method Z :=
  fun k =>
    if (offset + sizeof ty <=? length (data k))%nat
    then Normal
           (static_cast ty
              (object_value (firstn (sizeof ty) (skipn offset (data k))))) k
    else Undefined.

(** [memcpy(this->data + offset, src, |src|)] *)
Definition write (offset : nat) (src : list Z) : method unit :=
  fun k =>
    match memcpy (data k) offset src with
    | Some d => Normal tt (mkKey d)
    | None => Undefined
    end.

(** [memcpy(this->data + offset, &value, sizeof(IntType))] *)
Definition store (ty : IntType) (offset : nat) (value : Z) : method unit :=
  write offset (object_bytes (sizeof ty) value).

Definition AddInteger (ty : IntType) (x : Z) (offset : nat) : method unit :=
  let sign_flipped := SignFlip ty x in
  let big_endian := ToBigEndian ty sign_flipped in
  store ty offset big_endian.

Definition AddUnsignedInteger (ty : IntType) (x : Z) (offset : nat) : method unit :=
  let big_endian := ToBigEndian ty x in
  store ty offset big_endian.

Definition GetInteger (ty : IntType) (offset : nat) : method Z :=
  v <- load ty offset ;;
  let host_endian := ToHostEndian ty v in
  ret (SignFlip ty (static_cast ty host_endian)).

Definition GetUnsignedInteger (ty : IntType) (offset : nat) : method Z :=
  v <- load ty offset ;;
  let host_endian := ToHostEndian ty v in
  ret (static_cast ty host_endian).

(** The loop of [setFromString]; [i] counts the tokens packed so far.  Each
    successful [getline] shortens the stream, so [fuel] above its length is
    never used up. *)
Fixpoint setFromString_loop (fuel : nat) (iss : list ascii) (i : nat) : method nat :=
  match fuel with
  | O => ret i
  | S fuel' =>
      match getline iss comma with
      | None => ret i
      | Some (temp, iss') =>
          v <- lift (stoul temp) ;;
          AddUnsignedInteger uint64_t (static_cast uint64_t v) (i * 8) ;;;
          if (keySize <=? S i)%nat then ret (S i)
          else setFromString_loop fuel' iss' (S i)
      end
  end.

(** [setFromString(key)], returning the final value of the counter [i]
    (the C++ method returns nothing). *)
Definition setFromString_count (key : string) : method nat :=
  ZeroOut ;;;
  let iss := list_ascii_of_string key in
  setFromString_loop (S (length iss)) iss 0.

Definition setFromString (key : string) : method unit :=
  setFromString_count key ;;; ret tt.

Definition Compare (a b : GenericKey) : Z :=
  memcmp (data a) (data b) key_size_byte.

Definition LessThan (a b : GenericKey) : bool := Compare a b <? 0.
Definition Equals (a b : GenericKey) : bool := Compare a b =? 0.

Definition op_lt (this other : GenericKey) : bool :=
  memcmp (data this) (data other) key_size_byte <? 0.
Definition op_gt (this other : GenericKey) : bool :=
  memcmp (data this) (data other) key_size_byte >? 0.
Definition op_eq (this other : GenericKey) : bool :=
  memcmp (data this) (data other) key_size_byte =? 0.
Definition op_ne (this other : GenericKey) : bool := negb (op_eq this other).
Definition op_le (this other : GenericKey) : bool := negb (op_gt this other).
Definition op_ge (this other : GenericKey) : bool := negb (op_lt this other).

(** The functors. *)
Definition GenericComparator (lhs rhs : GenericKey) : bool := LessThan lhs rhs.
Definition GenericEqualityChecker (lhs rhs : GenericKey) : bool := Equals lhs rhs.
Definition GenericHasher (lhs : GenericKey) : Z := 0.

(** [GenericKey(int)]: the argument is not used. *)
Definition GenericKey_ctor_int (_ : Z) : method unit := ZeroOut.

(** Copy constructor and [operator=]: [memcpy(data, other.data, key_size_byte)].
    The copy constructor runs on storage of indeterminate content, the
    assignment on the key assigned to. *)
Definition GenericKey_copy (other : GenericKey) : method unit :=
  fun k =>
    if (key_size_byte <=? length (data other))%nat
    then write 0 (firstn key_size_byte (data other)) k
    else Undefined.

Definition op_assign (other : GenericKey) : method unit := GenericKey_copy other.

Definition GetRawData : method (list Z) := fun k => Normal (data k) k.

(** The result type of the [ToBigEndian] and [ToHostEndian] overloads. *)
Definition make_unsigned (ty : IntType) : IntType :=
  match ty with
  | int8_t | uint8_t => uint8_t
  | int16_t | uint16_t => uint16_t
  | int32_t | uint32_t => uint32_t
  | int64_t | uint64_t => uint64_t
  end.

(** ** Vocabulary of the specification *)

(** Pack one value with the member function for its signedness. *)
Definition pack (ty : IntType) (x : Z) (offset : nat) : method unit :=
  if is_signed ty then AddInteger ty x offset
  else AddUnsignedInteger ty x offset.

Definition unpack (ty : IntType) (offset : nat) : method Z :=
  if is_signed ty then GetInteger ty offset
  else GetUnsignedInteger ty offset.

(** Bytes [offset, offset + n) of the array. *)
Definition slice (offset n : nat) (d : list Z) : list Z :=
  firstn n (skipn offset d).

(** The order-preserving image of a value: sign bit flipped, most
    significant byte first. *)
Definition biased (ty : IntType) (x : Z) : Z :=
  if is_signed ty then x + 2 ^ (bit_width ty - 1) else x.

Definition encode (ty : IntType) (x : Z) : list Z :=
  to_be (sizeof ty) (biased ty x).

Definition decode (ty : IntType) (bs : list Z) : Z :=
  if is_signed ty then from_be bs - 2 ^ (bit_width ty - 1) else from_be bs.

(** Two arrays of the same size that hold the same bytes everywhere but in
    [offset, offset + n). *)
Definition same_outside (offset n : nat) (d1 d2 : list Z) : Prop :=
  length d1 = length d2
  /\ firstn offset d1 = firstn offset d2
  /\ skipn (offset + n) d1 = skipn (offset + n) d2.

(** Lexicographic comparison of byte strings of the same length. *)
Fixpoint lex_compare (a b : list Z) : comparison :=
  match a, b with
  | x :: a', y :: b' =>
      match x ?= y with
      | Eq => lex_compare a' b'
      | c => c
      end
  | _, _ => Eq
  end.

(** A layout assigns each field of a composite key its type and offset;
    [covers offset layout size]: the fields lie one after the other from
    [offset] and end at [size]. *)
Fixpoint covers (offset : nat) (layout : list (IntType * nat)) (size : nat) : Prop :=
  match layout with
  | [] => offset = size
  | (ty, o) :: layout' => o = offset /\ covers (offset + sizeof ty) layout' size
  end.

(** The values of a tuple have the types of the layout. *)
Definition typed (layout : list (IntType * nat)) (values : list Z) : Prop :=
  Forall2 (fun f v => representable (fst f) v) layout values.

(** Pack the fields in order. *)
Fixpoint pack_fields (layout : list (IntType * nat)) (values : list Z) : method unit :=
  match layout, values with
  | (ty, offset) :: layout', v :: values' =>
      pack ty v offset ;;; pack_fields layout' values'
  | _, _ => ret tt
  end.

(** The encodings of the fields, one after the other. *)
Fixpoint encode_fields (layout : list (IntType * nat)) (values : list Z) : list Z :=
  match layout, values with
  | (ty, _) :: layout', v :: values' => encode ty v ++ encode_fields layout' values'
  | _, _ => []
  end.

(** Field by field, first field dominant; each field is an integer compared
    as such. *)
Definition tuple_compare (a b : list Z) : comparison := lex_compare a b.

(** Tokens of the text form: a non-empty string of decimal digits that
    denotes an [unsigned long], tokens separated by commas. *)
Definition decimal_value (t : list ascii) : Z :=
  fold_left (fun acc c => 10 * acc + digit_value c) t 0.

Definition decimal_token (t : list ascii) : Prop :=
  t <> [] /\ forallb isdigit t = true /\ decimal_value t <= ULONG_MAX.

Fixpoint join (toks : list (list ascii)) : list ascii :=
  match toks with
  | [] => []
  | [t] => t
  | t :: toks' => t ++ comma :: join toks'
  end.

(** Pack [values] as [uint64_t] into the slots [i], [i + 1], ... *)
Fixpoint pack_slots (values : list Z) (i : nat) : method unit :=
  match values with
  | [] => ret tt
  | v :: values' =>
      AddUnsignedInteger uint64_t v (i * 8) ;;; pack_slots values' (S i)
  end.

(** A token as [getline] cuts it: no comma inside. *)
Definition comma_free (t : list ascii) : Prop :=
  forallb (fun c => negb (Ascii.eqb c comma)) t = true.

(** The numbers of the [keySize] slots that a text of tokens with these
    values stands for: the leading values, then zeros. *)
Definition slot_values (values : list Z) : list Z :=
  firstn keySize (values ++ repeat 0 keySize).

(** A member function that leaves a well-formed key well formed, on return
    and on exception. *)
Definition keeps_well_formed {A} (m : method A) : Prop :=
  forall k, well_formed k ->
    match m k with
    | Normal _ k' | Raised _ k' => well_formed k'
    | Undefined => True
    end.

(** * Properties *)

(** ** The method monad *)

Lemma bind_ret {A B} (a : A) (f : A -> method B) k : bind (ret a) f k = f a k.
Proof. reflexivity. Qed.

Lemma bind_Normal {A B} (m : method A) (f : A -> method B) k a k' :
  m k = Normal a k' -> bind m f k = f a k'.
Proof. intros E; unfold bind; now rewrite E. Qed.

Lemma bind_assoc {A B C} (m : method A) (f : A -> method B) (g : B -> method C) k :
  bind (bind m f) g k = bind m (fun x => bind (f x) g) k.
Proof. unfold bind; destruct (m k); reflexivity. Qed.

(** ** Bytes and integers *)

Lemma to_le_length w x : length (to_le w x) = w.
Proof. revert x; induction w; simpl; intros; auto. Qed.

Lemma to_le_bytes w x : Forall is_byte (to_le w x).
Proof.
  revert x; induction w; simpl; intros; constructor; auto.
  unfold is_byte; apply Z.mod_pos_bound; lia.
Qed.

Lemma pow256_succ w : 256 ^ Z.of_nat (S w) = 256 * 256 ^ Z.of_nat w.
Proof. rewrite Nat2Z.inj_succ, Z.pow_succ_r by lia; reflexivity. Qed.

Lemma pow256_pos w : 0 < 256 ^ Z.of_nat w.
Proof. apply Z.pow_pos_nonneg; lia. Qed.

Lemma from_le_to_le w x : from_le (to_le w x) = x mod 256 ^ Z.of_nat w.
Proof.
  revert x; induction w; intros x.
  - simpl; now rewrite Z.mod_1_r.
  - cbn [to_le from_le]; rewrite IHw, pow256_succ.
    rewrite Z.rem_mul_r by (pose proof (pow256_pos w); lia); lia.
Qed.

Lemma from_le_bound bs :
  Forall is_byte bs -> 0 <= from_le bs < 256 ^ Z.of_nat (length bs).
Proof.
  induction 1 as [|b bs Hb _ IH].
  - simpl; lia.
  - cbn [from_le length]; rewrite pow256_succ; unfold is_byte in Hb; lia.
Qed.

Lemma to_le_from_le bs :
  Forall is_byte bs -> to_le (length bs) (from_le bs) = bs.
Proof.
  induction 1 as [|b bs Hb _ IH]; [reflexivity|].
  unfold is_byte in Hb; cbn [length to_le from_le].
  replace (b + 256 * from_le bs) with (b + from_le bs * 256) by lia.
  rewrite Z.mod_add, Z.div_add by lia.
  rewrite Z.mod_small, Z.div_small by lia.
  now rewrite Z.add_0_l, IH.
Qed.

Lemma to_be_length w x : length (to_be w x) = w.
Proof. unfold to_be; now rewrite length_rev, to_le_length. Qed.

Lemma to_be_bytes w x : Forall is_byte (to_be w x).
Proof. unfold to_be; apply Forall_rev, to_le_bytes. Qed.

Lemma from_be_to_be w x : from_be (to_be w x) = x mod 256 ^ Z.of_nat w.
Proof. unfold from_be, to_be; now rewrite rev_involutive, from_le_to_le. Qed.


Lemma from_be_bound bs :
  Forall is_byte bs -> 0 <= from_be bs < 256 ^ Z.of_nat (length bs).
Proof.
  intros H; unfold from_be; rewrite <- (length_rev bs).
  now apply from_le_bound, Forall_rev.
Qed.

(** Whatever the host, converting to big endian and storing the object
    lays the bytes out most significant first... *)
Lemma object_bytes_htobe w x : object_bytes w (htobe w x) = to_be w x.
Proof.
  unfold object_bytes, htobe, bswap; destruct host; [|reflexivity].
  rewrite <- (to_le_length w x) at 1; rewrite <- length_rev.
  rewrite to_le_from_le; [reflexivity|apply Forall_rev, to_le_bytes].
Qed.

(** ... and loading the object and converting back reads them that way. *)
Lemma betoh_object_value w bs :
  length bs = w -> Forall is_byte bs -> betoh w (object_value bs) = from_be bs.
Proof.
  intros Hl Hb; unfold betoh, object_value, bswap; destruct host; [|reflexivity].
  subst w; now rewrite to_le_from_le.
Qed.

Lemma object_value_bound bs :
  Forall is_byte bs -> 0 <= object_value bs < 256 ^ Z.of_nat (length bs).
Proof.
  intros H; unfold object_value; destruct host;
    [now apply from_le_bound | now apply from_be_bound].
Qed.

(** ** Casts and the sign flip *)

Lemma bit_width_split ty : 2 ^ bit_width ty = 2 * 2 ^ (bit_width ty - 1).
Proof. destruct ty; reflexivity. Qed.

Lemma half_range_pos ty : 0 < 2 ^ (bit_width ty - 1).
Proof. destruct ty; reflexivity. Qed.

Lemma pow256_sizeof ty : 256 ^ Z.of_nat (sizeof ty) = 2 ^ bit_width ty.
Proof. destruct ty; reflexivity. Qed.

Lemma wrap_signed_cases p u :
  0 < p -> 0 <= u < 2 * p ->
  (u + p) mod (2 * p) - p = if u <? p then u else u - 2 * p.
Proof.
  intros Hp Hu; destruct (Z.ltb_spec u p).
  - rewrite Z.mod_small by lia; lia.
  - replace (u + p) with ((u - p) + 1 * (2 * p)) by lia.
    rewrite Z.mod_add, Z.mod_small by lia; lia.
Qed.

Lemma wrap_signed_id p x :
  0 < p -> - p <= x < p -> (x + p) mod (2 * p) - p = x.
Proof. intros; rewrite Z.mod_small by lia; lia. Qed.

Lemma static_cast_id ty x : representable ty x -> static_cast ty x = x.
Proof.
  unfold representable, static_cast; destruct (is_signed ty); intros H.
  - rewrite bit_width_split; apply wrap_signed_id; [apply half_range_pos|lia].
  - now apply Z.mod_small.
Qed.

Lemma static_cast_representable ty x : representable ty (static_cast ty x).
Proof.
  pose proof (half_range_pos ty) as Hp.
  unfold representable, static_cast; destruct (is_signed ty).
  - pose proof (Z.mod_pos_bound (x + 2 ^ (bit_width ty - 1)) (2 ^ bit_width ty)).
    rewrite bit_width_split in *; lia.
  - apply Z.mod_pos_bound; rewrite bit_width_split; lia.
Qed.

Lemma land_neg_pow2 n x : 0 <= n -> 0 <= x < 2 ^ n -> Z.land x (- 2 ^ n) = 0.
Proof.
  intros Hn Hx.
  replace (- 2 ^ n) with (Z.lnot (Z.ones n))
    by (rewrite Z.ones_equiv; unfold Z.lnot; lia).
  rewrite <- Z.ldiff_land, Z.ldiff_ones_r by lia.
  rewrite Z.shiftr_div_pow2, Z.div_small by lia.
  apply Z.shiftl_0_l.
Qed.

Lemma lxor_neg_pow2 n x :
  0 <= n -> - 2 ^ n <= x < 2 ^ n ->
  Z.lxor x (- 2 ^ n) = if x <? 0 then x + 2 ^ n else x - 2 ^ n.
Proof.
  intros Hn Hx; destruct (Z.ltb_spec x 0).
  - assert (E : x = Z.lxor (x + 2 ^ n) (- 2 ^ n)).
    { rewrite <- Z.add_nocarry_lxor by (apply land_neg_pow2; lia); lia. }
    rewrite E at 1.
    now rewrite Z.lxor_assoc, Z.lxor_nilpotent, Z.lxor_0_r.
  - rewrite <- Z.add_nocarry_lxor by (apply land_neg_pow2; lia); lia.
Qed.

Lemma sign_mask ty :
  is_signed ty = true ->
  static_cast ty (Z.shiftl (static_cast ty 1) (bit_width ty - 1))
  = - 2 ^ (bit_width ty - 1).
Proof. destruct ty; intros H; try discriminate H; reflexivity. Qed.

Lemma SignFlip_signed ty x :
  is_signed ty = true -> representable ty x ->
  SignFlip ty x
  = if x <? 0 then x + 2 ^ (bit_width ty - 1) else x - 2 ^ (bit_width ty - 1).
Proof.
  intros Hs Hx; unfold SignFlip; cbv zeta; rewrite (sign_mask ty Hs).
  pose proof (half_range_pos ty) as Hp.
  unfold representable in Hx; rewrite Hs in Hx.
  rewrite lxor_neg_pow2 by (solve [exact Hx | destruct ty; discriminate]).
  apply static_cast_id; unfold representable; rewrite Hs.
  destruct (Z.ltb_spec x 0); lia.
Qed.

Lemma biased_range ty x :
  representable ty x -> 0 <= biased ty x < 2 ^ bit_width ty.
Proof.
  unfold representable, biased; destruct (is_signed ty); intros H;
    [rewrite bit_width_split; lia | exact H].
Qed.

(** The bit pattern of the flipped value, read as unsigned. *)
Lemma SignFlip_pattern ty x :
  is_signed ty = true -> representable ty x ->
  SignFlip ty x mod 2 ^ bit_width ty = biased ty x.
Proof.
  intros Hs Hx; rewrite (SignFlip_signed ty x Hs Hx).
  pose proof (biased_range ty x Hx) as Hb.
  pose proof (half_range_pos ty) as Hp.
  unfold biased in *; rewrite Hs in *.
  unfold representable in Hx; rewrite Hs in Hx.
  rewrite bit_width_split in *.
  destruct (Z.ltb_spec x 0).
  - apply Z.mod_small; lia.
  - replace (x - 2 ^ (bit_width ty - 1))
      with (x + 2 ^ (bit_width ty - 1) + (-1) * (2 * 2 ^ (bit_width ty - 1))) by lia.
    rewrite Z.mod_add by lia; apply Z.mod_small; lia.
Qed.

Lemma SignFlip_cast ty u :
  is_signed ty = true -> 0 <= u < 2 ^ bit_width ty ->
  SignFlip ty (static_cast ty u) = u - 2 ^ (bit_width ty - 1).
Proof.
  intros Hs Hu.
  rewrite SignFlip_signed by (auto using static_cast_representable).
  pose proof (half_range_pos ty) as Hp.
  unfold static_cast; rewrite Hs, bit_width_split in *.
  rewrite wrap_signed_cases by lia.
  repeat match goal with
         | |- context [?a <? ?b] => destruct (Z.ltb_spec a b)
         end; lia.
Qed.

(** Reading a signed object and casting it to the unsigned type of the same
    size gives back the unsigned reading of its bytes. *)
Lemma cast_unsigned_signed ty u :
  is_signed ty = true -> 0 <= u < 2 ^ bit_width ty ->
  static_cast ty u mod 2 ^ bit_width ty = u.
Proof.
  intros Hs Hu; pose proof (half_range_pos ty) as Hp.
  unfold static_cast; rewrite Hs, bit_width_split in *.
  rewrite wrap_signed_cases by lia.
  destruct (Z.ltb_spec u (2 ^ (bit_width ty - 1))).
  - apply Z.mod_small; lia.
  - replace (u - 2 * 2 ^ (bit_width ty - 1))
      with (u + (-1) * (2 * 2 ^ (bit_width ty - 1))) by lia.
    rewrite Z.mod_add by lia; apply Z.mod_small; lia.
Qed.

(** ** What pack writes and what unpack reads *)

Lemma to_be_mod w x : to_be w (x mod 256 ^ Z.of_nat w) = to_be w x.
Proof.
  unfold to_be; f_equal.
  rewrite <- from_le_to_le.
  rewrite <- (to_le_length w x) at 1.
  apply to_le_from_le, to_le_bytes.
Qed.

Lemma object_bytes_1 x : object_bytes 1 x = to_be 1 x.
Proof. unfold object_bytes; destruct host; reflexivity. Qed.

Lemma object_value_1 bs : length bs = 1%nat -> object_value bs = from_be bs.
Proof.
  destruct bs as [|b [|? ?]]; try discriminate; intros _.
  unfold object_value; destruct host; reflexivity.
Qed.

Lemma static_cast_unsigned ty x :
  is_signed ty = false -> static_cast ty x = x mod 256 ^ Z.of_nat (sizeof ty).
Proof. intros H; unfold static_cast; now rewrite H, pow256_sizeof. Qed.

Lemma bytes_of_ToBigEndian ty x :
  object_bytes (sizeof ty) (ToBigEndian ty x) = to_be (sizeof ty) x.
Proof.
  destruct ty; cbn [ToBigEndian sizeof];
    unfold TwoBytesToBigEndian, FourBytesToBigEndian, EightBytesToBigEndian;
    rewrite ?object_bytes_htobe, ?object_bytes_1; try reflexivity;
    rewrite static_cast_unsigned by reflexivity; apply to_be_mod.
Qed.

Lemma AddInteger_spec ty x offset :
  is_signed ty = true -> representable ty x ->
  AddInteger ty x offset = write offset (encode ty x).
Proof.
  intros Hs Hx; unfold AddInteger, store, encode; cbv zeta.
  rewrite bytes_of_ToBigEndian, <- to_be_mod, pow256_sizeof.
  now rewrite SignFlip_pattern.
Qed.

Lemma AddUnsignedInteger_spec ty x offset :
  is_signed ty = false ->
  AddUnsignedInteger ty x offset = write offset (encode ty x).
Proof.
  intros Hs; unfold AddUnsignedInteger, store, encode, biased; cbv zeta.
  now rewrite bytes_of_ToBigEndian, Hs.
Qed.

Lemma pack_spec ty x offset :
  representable ty x -> pack ty x offset = write offset (encode ty x).
Proof.
  intros Hx; unfold pack; destruct (is_signed ty) eqn:Hs;
    [now apply AddInteger_spec | now apply AddUnsignedInteger_spec].
Qed.

Lemma encode_length ty x : length (encode ty x) = sizeof ty.
Proof. apply to_be_length. Qed.

Lemma encode_bytes ty x : Forall is_byte (encode ty x).
Proof. apply to_be_bytes. Qed.

Lemma decode_encode ty x : representable ty x -> decode ty (encode ty x) = x.
Proof.
  intros Hx; pose proof (biased_range ty x Hx) as Hb.
  unfold decode, encode; rewrite from_be_to_be, pow256_sizeof.
  rewrite Z.mod_small by exact Hb.
  unfold biased; destruct (is_signed ty); lia.
Qed.

Lemma write_in_bounds offset src k :
  (offset + length src <= length (data k))%nat ->
  write offset src k = Normal tt (mkKey (splice (data k) offset src)).
Proof.
  intros H; unfold write, memcpy.
  apply Nat.leb_le in H; now rewrite H.
Qed.

Lemma write_out_of_bounds offset src k :
  (length (data k) < offset + length src)%nat -> write offset src k = Undefined.
Proof.
  intros H; unfold write, memcpy.
  apply Nat.leb_gt in H; now rewrite H.
Qed.

Lemma ToHostEndian_load ty bs :
  length bs = sizeof ty -> Forall is_byte bs ->
  ToHostEndian ty (static_cast ty (object_value bs)) = from_be bs.
Proof.
  intros Hl Hb.
  pose proof (object_value_bound bs Hb) as Hu.
  rewrite Hl, pow256_sizeof in Hu.
  destruct ty; cbn [ToHostEndian];
    unfold TwoBytesToHostEndian, FourBytesToHostEndian, EightBytesToHostEndian;
    match goal with
    | |- context [static_cast ?u (static_cast ?s _)] =>
        unfold static_cast at 1; cbn [is_signed];
        change (bit_width u) with (bit_width s);
        rewrite cast_unsigned_signed by (reflexivity || exact Hu)
    | |- _ => rewrite static_cast_id by exact Hu
    end;
    solve [ now apply betoh_object_value | now apply object_value_1 ].
Qed.

Lemma load_in_bounds ty offset k :
  (offset + sizeof ty <= length (data k))%nat ->
  load ty offset k
  = Normal (static_cast ty (object_value (slice offset (sizeof ty) (data k)))) k.
Proof.
  intros H; unfold load, slice.
  apply Nat.leb_le in H; now rewrite H.
Qed.

Lemma slice_length offset n d :
  (offset + n <= length d)%nat -> length (slice offset n d) = n.
Proof. intros H; unfold slice; rewrite length_firstn, length_skipn; lia. Qed.

Lemma Forall_split (P : Z -> Prop) n d :
  Forall P d <-> Forall P (firstn n d) /\ Forall P (skipn n d).
Proof. now rewrite <- Forall_app, firstn_skipn. Qed.

Lemma slice_bytes offset n d : Forall is_byte d -> Forall is_byte (slice offset n d).
Proof.
  intros H; unfold slice.
  apply (Forall_split _ offset) in H; destruct H as [_ H].
  now apply (Forall_split _ n) in H.
Qed.

Lemma GetInteger_spec ty offset k :
  is_signed ty = true -> Forall is_byte (data k) ->
  (offset + sizeof ty <= length (data k))%nat ->
  GetInteger ty offset k
  = Normal (decode ty (slice offset (sizeof ty) (data k))) k.
Proof.
  intros Hs Hb Hin; unfold GetInteger, bind, ret, decode.
  rewrite load_in_bounds by exact Hin; rewrite Hs.
  pose proof (slice_length offset _ _ Hin) as Hl.
  pose proof (slice_bytes offset (sizeof ty) _ Hb) as Hsb.
  rewrite ToHostEndian_load by assumption.
  rewrite SignFlip_cast; [reflexivity|exact Hs|].
  pose proof (from_be_bound _ Hsb) as Hf.
  now rewrite Hl, pow256_sizeof in Hf.
Qed.

Lemma GetUnsignedInteger_spec ty offset k :
  is_signed ty = false -> Forall is_byte (data k) ->
  (offset + sizeof ty <= length (data k))%nat ->
  GetUnsignedInteger ty offset k
  = Normal (decode ty (slice offset (sizeof ty) (data k))) k.
Proof.
  intros Hs Hb Hin; unfold GetUnsignedInteger, bind, ret, decode.
  rewrite load_in_bounds by exact Hin; rewrite Hs.
  pose proof (slice_length offset _ _ Hin) as Hl.
  pose proof (slice_bytes offset (sizeof ty) _ Hb) as Hsb.
  rewrite ToHostEndian_load by assumption.
  rewrite static_cast_id; [reflexivity|].
  unfold representable; rewrite Hs.
  pose proof (from_be_bound _ Hsb) as Hf.
  now rewrite Hl, pow256_sizeof in Hf.
Qed.

Lemma unpack_spec ty offset k :
  Forall is_byte (data k) ->
  (offset + sizeof ty <= length (data k))%nat ->
  unpack ty offset k
  = Normal (decode ty (slice offset (sizeof ty) (data k))) k.
Proof.
  intros Hb Hin; unfold unpack; destruct (is_signed ty) eqn:Hs;
    [now apply GetInteger_spec | now apply GetUnsignedInteger_spec].
Qed.

(** ** memcmp is the lexicographic order on bytes *)

Lemma memcmp_sign a b n :
  length a = n -> length b = n -> (memcmp a b n ?= 0) = lex_compare a b.
Proof.
  revert a b; induction n as [|n IH]; intros [|x a] [|y b] Ha Hb;
    try discriminate; [reflexivity|].
  cbn [memcmp lex_compare].
  destruct (Z.eqb_spec x y) as [->|Hne].
  - rewrite Z.compare_refl; apply IH; simpl in *; lia.
  - rewrite <- (Z.compare_sub x y).
    destruct (Z.compare_spec x y); [contradiction|reflexivity..].
Qed.

Lemma lex_compare_refl a : lex_compare a a = Eq.
Proof. induction a; simpl; [|rewrite Z.compare_refl]; auto. Qed.

Lemma lex_compare_app a1 b1 a2 b2 :
  length a1 = length b1 ->
  lex_compare (a1 ++ a2) (b1 ++ b2)
  = match lex_compare a1 b1 with
    | Eq => lex_compare a2 b2
    | c => c
    end.
Proof.
  revert b1; induction a1 as [|x a1 IH]; intros [|y b1] H; try discriminate.
  - reflexivity.
  - cbn [app lex_compare]; destruct (x ?= y); auto.
Qed.



Lemma compare_base256 x y :
  (x ?= y)
  = match x / 256 ?= y / 256 with
    | Eq => x mod 256 ?= y mod 256
    | c => c
    end.
Proof.
  pose proof (Z.div_mod x 256 ltac:(lia)) as Hx.
  pose proof (Z.div_mod y 256 ltac:(lia)) as Hy.
  pose proof (Z.mod_pos_bound x 256 ltac:(lia)).
  pose proof (Z.mod_pos_bound y 256 ltac:(lia)).
  destruct (Z.compare_spec (x / 256) (y / 256));
    destruct (Z.compare_spec (x mod 256) (y mod 256));
    destruct (Z.compare_spec x y); try reflexivity; lia.
Qed.

(** Big-endian byte strings compare as the numbers they denote. *)
Lemma lex_compare_to_be w x y :
  0 <= x < 256 ^ Z.of_nat w -> 0 <= y < 256 ^ Z.of_nat w ->
  lex_compare (to_be w x) (to_be w y) = (x ?= y).
Proof.
  revert x y; induction w as [|w IH]; intros x y Hx Hy.
  - simpl in *; symmetry; apply Z.compare_eq_iff; lia.
  - rewrite pow256_succ in Hx, Hy.
    unfold to_be; cbn [to_le rev]; fold (to_be w (x / 256)) (to_be w (y / 256)).
    rewrite lex_compare_app by now rewrite !to_be_length.
    rewrite IH by (split; [apply Z.div_pos | apply Z.div_lt_upper_bound]; lia).
    rewrite (compare_base256 x y).
    destruct (x / 256 ?= y / 256); try reflexivity.
    cbn [lex_compare]; now destruct (x mod 256 ?= y mod 256).
Qed.

Lemma lex_compare_encode ty a b :
  representable ty a -> representable ty b ->
  lex_compare (encode ty a) (encode ty b) = (a ?= b).
Proof.
  intros Ha Hb; unfold encode.
  rewrite lex_compare_to_be by (rewrite pow256_sizeof; now apply biased_range).
  unfold biased; destruct (is_signed ty); [|reflexivity].
  now rewrite !(Z.add_comm _ (2 ^ _)), Z.add_compare_mono_l.
Qed.

Lemma Compare_sign a b :
  length (data a) = key_size_byte -> length (data b) = key_size_byte ->
  (Compare a b ?= 0) = lex_compare (data a) (data b).
Proof. intros; unfold Compare; now apply memcmp_sign. Qed.

(** ** Writing into the array *)

Lemma splice_length d offset src :
  (offset + length src <= length d)%nat ->
  length (splice d offset src) = length d.
Proof.
  intros H; unfold splice.
  rewrite !length_app, length_firstn, length_skipn; lia.
Qed.

Lemma splice_slice d offset src :
  (offset + length src <= length d)%nat ->
  slice offset (length src) (splice d offset src) = src.
Proof.
  intros H; unfold slice, splice.
  rewrite skipn_app, length_firstn, Nat.min_l by lia.
  rewrite (skipn_all2 (firstn offset d)) by (rewrite length_firstn; lia).
  rewrite Nat.sub_diag; cbn [skipn app].
  rewrite firstn_app, Nat.sub_diag, firstn_all; cbn [firstn].
  apply app_nil_r.
Qed.

Lemma splice_bytes d offset src :
  Forall is_byte d -> Forall is_byte src -> Forall is_byte (splice d offset src).
Proof.
  intros Hd Hs; unfold splice; rewrite !Forall_app; repeat split; auto.
  - now apply (Forall_split _ offset) in Hd.
  - now apply (Forall_split _ (offset + length src)) in Hd.
Qed.

Lemma splice_same_outside d offset src :
  (offset + length src <= length d)%nat ->
  same_outside offset (length src) (splice d offset src) d.
Proof.
  intros H; split; [now apply splice_length|]; unfold splice; split.
  - rewrite firstn_app, length_firstn, Nat.min_l by lia.
    rewrite Nat.sub_diag, firstn_firstn, Nat.min_id; cbn [firstn].
    apply app_nil_r.
  - rewrite app_assoc, skipn_app.
    rewrite skipn_all2 by (rewrite length_app, length_firstn; lia).
    rewrite length_app, length_firstn, Nat.min_l by lia.
    now rewrite Nat.sub_diag.
Qed.

Lemma write_well_formed offset src k :
  well_formed k -> Forall is_byte src ->
  (offset + length src <= key_size_byte)%nat ->
  write offset src k = Normal tt (mkKey (splice (data k) offset src))
  /\ well_formed (mkKey (splice (data k) offset src)).
Proof.
  intros [Hl Hb] Hs Hin; split.
  - apply write_in_bounds; lia.
  - split; cbn [data]; [rewrite splice_length; lia | now apply splice_bytes].
Qed.

(** Two arrays that differ in one field only compare as that field does. *)
Lemma lex_compare_splice d1 d2 offset e1 e2 :
  same_outside offset (length e1) d1 d2 ->
  length e1 = length e2 ->
  lex_compare (splice d1 offset e1) (splice d2 offset e2) = lex_compare e1 e2.
Proof.
  intros (Hl & Hpre & Hpost) He; unfold splice.
  rewrite <- He, Hpre, Hpost.
  rewrite lex_compare_app, lex_compare_refl by reflexivity.
  rewrite lex_compare_app, lex_compare_refl by exact He.
  now destruct (lex_compare e1 e2).
Qed.

(** ** Order preservation and round trip *)

(** C1. For a signed type of width 1, 2, 4 or 8 bytes and values [a], [b] of
    that type, packed by [AddInteger] at the same in-bounds offset into two
    keys that are identical outside the field: both calls return, and
    [a < b] exactly when [Compare] of the resulting keys is negative.  The
    values range over the whole type, zero crossing and extremes included. *)
Theorem AddInteger_preserves_order ty a b offset k1 k2 :
  is_signed ty = true ->
  representable ty a -> representable ty b ->
  well_formed k1 -> well_formed k2 ->
  (offset + sizeof ty <= key_size_byte)%nat ->
  same_outside offset (sizeof ty) (data k1) (data k2) ->
  exists ka kb,
    AddInteger ty a offset k1 = Normal tt ka
    /\ AddInteger ty b offset k2 = Normal tt kb
    /\ (a < b <-> Compare ka kb < 0).
Proof.
  intros Hs Ha Hb W1 W2 Hin Hout.
  rewrite !AddInteger_spec by assumption.
  destruct (write_well_formed offset (encode ty a) k1 W1) as [Ea [La _]];
    [apply encode_bytes | rewrite encode_length; exact Hin |].
  destruct (write_well_formed offset (encode ty b) k2 W2) as [Eb [Lb _]];
    [apply encode_bytes | rewrite encode_length; exact Hin |].
  eexists; eexists; split; [exact Ea|]; split; [exact Eb|].
  unfold Z.lt at 2; rewrite Compare_sign by assumption; cbn [data].
  rewrite lex_compare_splice
    by (rewrite ?encode_length; solve [exact Hout | reflexivity]).
  now rewrite lex_compare_encode.
Qed.

(** C2. For each of the eight integer types, every value [v] of the type
    and every in-bounds offset: [AddInteger] followed by [GetInteger] (signed
    types), and [AddUnsignedInteger] followed by [GetUnsignedInteger]
    (unsigned types), at that offset and type, both return and the value
    read back is [v]. *)
Theorem pack_unpack_round_trip ty v offset k :
  representable ty v ->
  well_formed k ->
  (offset + sizeof ty <= key_size_byte)%nat ->
  (is_signed ty = true ->
   exists k', AddInteger ty v offset k = Normal tt k'
              /\ GetInteger ty offset k' = Normal v k')
  /\ (is_signed ty = false ->
      exists k', AddUnsignedInteger ty v offset k = Normal tt k'
                 /\ GetUnsignedInteger ty offset k' = Normal v k').
Proof.
  intros Hv W Hin.
  destruct (write_well_formed offset (encode ty v) k W) as [E [L B]];
    [apply encode_bytes | rewrite encode_length; exact Hin |].
  assert (Hsl : slice offset (sizeof ty) (splice (data k) offset (encode ty v))
                = encode ty v).
  { rewrite <- (encode_length ty v) at 1; apply splice_slice.
    rewrite encode_length; destruct W; lia. }
  split; intros Hs; eexists; (split; [|]).
  - rewrite AddInteger_spec by assumption; exact E.
  - rewrite GetInteger_spec by (cbn [data] in *; auto; lia).
    cbn [data]; now rewrite Hsl, decode_encode.
  - rewrite AddUnsignedInteger_spec by assumption; exact E.
  - rewrite GetUnsignedInteger_spec by (cbn [data] in *; auto; lia).
    cbn [data]; now rewrite Hsl, decode_encode.
Qed.

(** ** Frame *)

Lemma object_bytes_length w x : length (object_bytes w x) = w.
Proof.
  unfold object_bytes; destruct host; [apply to_le_length | apply to_be_length].
Qed.

Lemma store_frame ty offset x k :
  (offset + sizeof ty <= length (data k))%nat ->
  exists k', store ty offset x k = Normal tt k'
             /\ same_outside offset (sizeof ty) (data k') (data k).
Proof.
  intros Hin; unfold store.
  pose proof (object_bytes_length (sizeof ty) x) as Hl.
  rewrite write_in_bounds by (rewrite Hl; exact Hin).
  eexists; split; [reflexivity|]; cbn [data].
  rewrite <- Hl at 1; apply splice_same_outside; rewrite Hl; exact Hin.
Qed.

(** C9. On any key, for any of the integer types (width [w]), any value and
    any in-bounds offset: [AddInteger] and [AddUnsignedInteger] return and
    leave the array with the same size and the same bytes outside
    [offset, offset + w); [GetInteger] and [GetUnsignedInteger] return and
    leave the key as it was. *)
Theorem pack_frame_unpack_read_only ty v offset k :
  well_formed k ->
  (offset + sizeof ty <= key_size_byte)%nat ->
  (exists k', AddInteger ty v offset k = Normal tt k'
              /\ same_outside offset (sizeof ty) (data k') (data k))
  /\ (exists k', AddUnsignedInteger ty v offset k = Normal tt k'
                 /\ same_outside offset (sizeof ty) (data k') (data k))
  /\ (exists r, GetInteger ty offset k = Normal r k)
  /\ (exists r, GetUnsignedInteger ty offset k = Normal r k).
Proof.
  intros [Hl _] Hin; rewrite <- Hl in Hin.
  repeat split.
  - now apply store_frame.
  - now apply store_frame.
  - unfold GetInteger, bind, ret; rewrite load_in_bounds by exact Hin.
    eexists; reflexivity.
  - unfold GetUnsignedInteger, bind, ret; rewrite load_in_bounds by exact Hin.
    eexists; reflexivity.
Qed.

(** ** Comparison operators *)

Lemma memcmp_antisym a b n : memcmp b a n = - memcmp a b n.
Proof.
  revert a b; induction n as [|n IH]; intros [|x a] [|y b]; try reflexivity.
  cbn [memcmp]; rewrite (Z.eqb_sym y x).
  destruct (x =? y); [apply IH | lia].
Qed.

(** C4. For any two keys of one instantiation exactly one of [<], [==],
    [>] holds, and [!=], [<=], [>=] are the negations of [==], [>], [<]. *)
Theorem operators_consistent a b :
  (op_lt a b = true /\ op_eq a b = false /\ op_gt a b = false
   \/ op_lt a b = false /\ op_eq a b = true /\ op_gt a b = false
   \/ op_lt a b = false /\ op_eq a b = false /\ op_gt a b = true)
  /\ op_ne a b = negb (op_eq a b)
  /\ op_le a b = negb (op_gt a b)
  /\ op_ge a b = negb (op_lt a b).
Proof.
  split; [|repeat split].
  unfold op_lt, op_eq, op_gt.
  set (c := memcmp (data a) (data b) key_size_byte).
  rewrite Z.gtb_ltb.
  destruct (Z.ltb_spec c 0), (Z.eqb_spec c 0), (Z.ltb_spec 0 c);
    try lia; auto.
Qed.

(** C5. The operators written with [memcmp] agree with the static functions
    derived from [Compare]: [a < b] is [LessThan(a, b)], [a == b] is
    [Equals(a, b)] and [a > b] is [LessThan(b, a)]. *)
Theorem operators_agree_with_Compare a b :
  op_lt a b = LessThan a b
  /\ op_eq a b = Equals a b
  /\ op_gt a b = LessThan b a.
Proof.
  repeat split.
  unfold op_gt, LessThan, Compare.
  rewrite (memcmp_antisym (data a) (data b)), Z.gtb_ltb.
  destruct (Z.ltb_spec 0 (memcmp (data a) (data b) key_size_byte));
    destruct (Z.ltb_spec (- memcmp (data a) (data b) key_size_byte) 0);
    try reflexivity; lia.
Qed.

(** ** Fresh keys *)

Lemma skipn_repeat (c : Z) m n : skipn m (repeat c n) = repeat c (n - m).
Proof.
  revert n; induction m as [|m IH]; intros [|n]; try reflexivity.
  cbn [skipn repeat Nat.sub]; apply IH.
Qed.

Lemma firstn_repeat (c : Z) m n : (m <= n)%nat -> firstn m (repeat c n) = repeat c m.
Proof.
  revert n; induction m as [|m IH]; intros [|n] H; try reflexivity; [lia|].
  cbn [firstn repeat]; f_equal; apply IH; lia.
Qed.

Lemma slice_repeat (c : Z) offset w n :
  (offset + w <= n)%nat -> slice offset w (repeat c n) = repeat c w.
Proof.
  intros H; unfold slice; rewrite skipn_repeat; apply firstn_repeat; lia.
Qed.

Lemma ZeroOut_spec k :
  length (data k) = key_size_byte ->
  ZeroOut k = Normal tt (mkKey (repeat 0 key_size_byte)).
Proof.
  intros H; unfold ZeroOut, memset.
  now rewrite skipn_all2, app_nil_r by lia.
Qed.

Lemma zero_key_well_formed : well_formed (mkKey (repeat 0 key_size_byte)).
Proof.
  split; cbn [data]; [apply repeat_length|].
  apply Forall_forall; intros b Hb; apply repeat_spec in Hb; subst.
  unfold is_byte; lia.
Qed.

Lemma load_zero ty :
  static_cast ty (object_value (repeat 0 (sizeof ty))) = 0.
Proof. unfold object_value; destruct ty, host; reflexivity. Qed.

Lemma ToHostEndian_zero ty : ToHostEndian ty 0 = 0.
Proof.
  destruct ty; cbn [ToHostEndian]; try reflexivity;
    unfold TwoBytesToHostEndian, FourBytesToHostEndian, EightBytesToHostEndian,
      betoh; destruct host; reflexivity.
Qed.

Lemma SignFlip_zero ty : is_signed ty = true -> SignFlip ty 0 = min_value ty.
Proof. destruct ty; intros H; try discriminate H; reflexivity. Qed.

(** C6. Default construction, on storage of any content, yields a key whose
    bytes are all zero; two such keys satisfy [Equals] and [==]; and at any
    in-bounds offset [GetUnsignedInteger] returns 0 and [GetInteger] returns
    what an all-zero field decodes to, the sign flip of 0, which for a signed
    type is the least value of the type. *)
Theorem fresh_key_zero storage1 storage2 :
  well_formed storage1 -> well_formed storage2 ->
  exists k1 k2,
    GenericKey_ctor storage1 = Normal tt k1
    /\ GenericKey_ctor storage2 = Normal tt k2
    /\ data k1 = repeat 0 key_size_byte
    /\ Equals k1 k2 = true
    /\ op_eq k1 k2 = true
    /\ forall ty offset,
        (offset + sizeof ty <= key_size_byte)%nat ->
        GetUnsignedInteger ty offset k1 = Normal 0 k1
        /\ GetInteger ty offset k1 = Normal (SignFlip ty 0) k1
        /\ (is_signed ty = true -> SignFlip ty 0 = min_value ty).
Proof.
  intros [L1 _] [L2 _]; unfold GenericKey_ctor.
  rewrite !ZeroOut_spec by assumption.
  pose proof zero_key_well_formed as [Lz Bz].
  assert (E : memcmp (repeat 0 key_size_byte) (repeat 0 key_size_byte)
                key_size_byte = 0).
  { apply Z.compare_eq_iff.
    rewrite memcmp_sign by apply repeat_length; apply lex_compare_refl. }
  eexists; eexists; repeat (split; [reflexivity|]).
  split; [unfold Equals, Compare; cbn [data]; now rewrite E|].
  split; [unfold op_eq; cbn [data]; now rewrite E|].
  intros ty offset Hin.
  assert (Hl : load ty offset (mkKey (repeat 0 key_size_byte))
               = Normal 0 (mkKey (repeat 0 key_size_byte))).
  { rewrite load_in_bounds by (cbn [data]; rewrite repeat_length; exact Hin).
    cbn [data]; now rewrite slice_repeat, load_zero by exact Hin. }
  split; [|split; [|apply SignFlip_zero]].
  - unfold GetUnsignedInteger; rewrite (bind_Normal _ _ _ _ _ Hl).
    rewrite ToHostEndian_zero; unfold ret; f_equal.
    destruct ty; reflexivity.
  - unfold GetInteger; rewrite (bind_Normal _ _ _ _ _ Hl).
    rewrite ToHostEndian_zero; unfold ret; f_equal.
    destruct ty; reflexivity.
Qed.

(** ** Hashing *)

(** C7. Keys for which [Equals] holds have equal [GenericHasher] values. *)
Theorem hash_respects_Equals a b :
  Equals a b = true -> GenericHasher a = GenericHasher b.
Proof. intros _; reflexivity. Qed.

(** ** Composite keys *)

Lemma covers_le offset layout size : covers offset layout size -> (offset <= size)%nat.
Proof.
  revert offset; induction layout as [|[ty o] layout IH]; intros offset H.
  - simpl in H; lia.
  - destruct H as [_ H]; apply IH in H; lia.
Qed.

Lemma firstn_splice d offset src :
  (offset + length src <= length d)%nat ->
  firstn (offset + length src) (splice d offset src) = firstn offset d ++ src.
Proof.
  intros H; unfold splice.
  rewrite app_assoc, firstn_app.
  rewrite length_app, length_firstn, Nat.min_l by lia.
  rewrite Nat.sub_diag, firstn_all2 by (rewrite length_app, length_firstn; lia).
  apply app_nil_r.
Qed.

Lemma pack_fields_spec layout : forall values offset k,
  covers offset layout key_size_byte -> typed layout values ->
  well_formed k ->
  pack_fields layout values k
  = Normal tt (mkKey (firstn offset (data k) ++ encode_fields layout values)).
Proof.
  induction layout as [|[ty o] layout IH]; intros values offset k Hc Ht W.
  - inversion Ht; subst; simpl in Hc; subst offset.
    destruct W as [L _]; destruct k as [d]; cbn [data] in *.
    now cbn; unfold ret; rewrite <- L, firstn_all, app_nil_r.
  - inversion Ht as [|f v fs vs Hv Hvs]; subst.
    destruct Hc as [-> Hc]; cbn [fst] in Hv.
    pose proof (covers_le _ _ _ Hc) as Hle.
    destruct (write_well_formed offset (encode ty v) k W) as [E W'];
      [apply encode_bytes | rewrite encode_length; exact Hle |].
    cbn [pack_fields encode_fields]; unfold bind.
    rewrite pack_spec, E by exact Hv.
    rewrite (IH vs (offset + sizeof ty)%nat) by assumption.
    cbn [data]; rewrite <- (encode_length ty v) at 1.
    rewrite firstn_splice, <- app_assoc; [reflexivity|].
    rewrite encode_length; destruct W; lia.
Qed.


Lemma lex_compare_encode_fields layout : forall va vb,
  typed layout va -> typed layout vb ->
  lex_compare (encode_fields layout va) (encode_fields layout vb)
  = tuple_compare va vb.
Proof.
  unfold tuple_compare.
  induction layout as [|[ty o] layout IH]; intros va vb Ha Hb;
    inversion Ha; inversion Hb; subst; cbn [encode_fields lex_compare fst] in *;
    [reflexivity|].
  rewrite lex_compare_app by now rewrite !encode_length.
  rewrite lex_compare_encode by assumption.
  destruct (_ ?= _); auto.
Qed.

Lemma encode_fields_covers offset layout values size :
  covers offset layout size -> typed layout values ->
  (offset + length (encode_fields layout values))%nat = size.
Proof.
  revert offset values; induction layout as [|[ty o] layout IH];
    intros offset values Hc Ht; inversion Ht; subst; cbn [covers encode_fields] in *.
  - cbn; lia.
  - destruct Hc as [_ Hc]; rewrite length_app, encode_length.
    rewrite Nat.add_assoc; now apply IH.
Qed.

(** C3. Two keys of one instantiation, of any prior content, are packed
    with tuples of the same layout, whose fields lie at increasing offsets,
    do not overlap and cover the array.  Both packings return, and the sign
    of [Compare] on the results is the lexicographic comparison of the
    tuples, first field dominant. *)
Theorem composite_key_order layout va vb k1 k2 :
  covers 0 layout key_size_byte ->
  typed layout va -> typed layout vb ->
  well_formed k1 -> well_formed k2 ->
  exists ka kb,
    pack_fields layout va k1 = Normal tt ka
    /\ pack_fields layout vb k2 = Normal tt kb
    /\ (Compare ka kb ?= 0) = tuple_compare va vb.
Proof.
  intros Hc Ha Hb W1 W2.
  rewrite (pack_fields_spec layout va 0 k1), (pack_fields_spec layout vb 0 k2)
    by assumption.
  eexists; eexists; split; [reflexivity|]; split; [reflexivity|].
  cbn [firstn app].
  rewrite Compare_sign; cbn [data].
  - now apply lex_compare_encode_fields.
  - now rewrite <- (encode_fields_covers 0 layout va key_size_byte).
  - now rewrite <- (encode_fields_covers 0 layout vb key_size_byte).
Qed.

(** ** Text form: tokens, getline and stoul *)

Lemma isdigit_range c :
  isdigit c = true -> (48 <= nat_of_ascii c <= 57)%nat.
Proof.
  unfold isdigit; cbv zeta; intros H.
  apply andb_true_iff in H; destruct H as [H1 H2].
  apply Nat.leb_le in H1, H2; lia.
Qed.

Lemma isdigit_neq c d :
  isdigit c = true -> isdigit d = false -> Ascii.eqb c d = false.
Proof.
  intros Hc Hd; destruct (Ascii.eqb_spec c d); [congruence|reflexivity].
Qed.

Lemma isdigit_not_space c : isdigit c = true -> isspace c = false.
Proof.
  intros H; apply isdigit_range in H; unfold isspace; cbv zeta.
  destruct (Nat.eqb_spec (nat_of_ascii c) 32); [lia|].
  destruct (Nat.leb_spec (nat_of_ascii c) 13); [lia|].
  now rewrite andb_false_r.
Qed.

Lemma digit_value_range c : isdigit c = true -> 0 <= digit_value c <= 9.
Proof. intros H; apply isdigit_range in H; unfold digit_value; lia. Qed.

Lemma read_until_token t :
  forallb isdigit t = true ->
  read_until comma t = (t, [])
  /\ forall r, read_until comma (t ++ comma :: r) = (t, r).
Proof.
  induction t as [|c t IH]; intros H.
  - split; [reflexivity|intros r; reflexivity].
  - cbn [forallb] in H; apply andb_true_iff in H; destruct H as [Hc Ht].
    destruct (IH Ht) as [E1 E2].
    cbn [read_until app]; rewrite (isdigit_neq c comma Hc eq_refl).
    split; [now rewrite E1 | intros r; now rewrite E2].
Qed.

Lemma getline_join t toks :
  decimal_token t ->
  getline (join (t :: toks)) comma = Some (t, join toks).
Proof.
  intros (Hne & Hd & _).
  destruct (read_until_token t Hd) as [E1 E2].
  destruct t as [|c t]; [contradiction|].
  destruct toks as [|t' toks].
  - cbn [join]; unfold getline; now rewrite E1.
  - change (join ((c :: t) :: t' :: toks))
      with ((c :: t) ++ comma :: join (t' :: toks)).
    change (getline ((c :: t) ++ comma :: join (t' :: toks)) comma)
      with (Some (read_until comma ((c :: t) ++ comma :: join (t' :: toks)))).
    now rewrite E2.
Qed.

Lemma join_length t toks :
  decimal_token t -> (length (join toks) < length (join (t :: toks)))%nat.
Proof.
  intros (Hne & _); destruct t as [|c t]; [contradiction|].
  destruct toks as [|t' toks]; [cbn; lia|].
  change (join ((c :: t) :: t' :: toks))
    with ((c :: t) ++ comma :: join (t' :: toks)).
  rewrite length_app; cbn [length]; lia.
Qed.

Lemma read_digits_all t : forall acc seen,
  forallb isdigit t = true -> t <> [] \/ seen = true ->
  read_digits t acc seen
  = Some (fold_left (fun a c => 10 * a + digit_value c) t acc).
Proof.
  induction t as [|c t IH]; intros acc seen Hd Hs.
  - destruct Hs as [Hs | ->]; [contradiction|reflexivity].
  - cbn [forallb] in Hd; apply andb_true_iff in Hd; destruct Hd as [Hc Ht].
    cbn [read_digits fold_left]; rewrite Hc; apply IH; auto.
Qed.

Lemma fold_digits_nonneg t : forall acc,
  forallb isdigit t = true -> 0 <= acc ->
  0 <= fold_left (fun a c => 10 * a + digit_value c) t acc.
Proof.
  induction t as [|c t IH]; intros acc Hd Ha; [exact Ha|].
  cbn [forallb] in Hd; apply andb_true_iff in Hd; destruct Hd as [Hc Ht].
  cbn [fold_left]; apply IH; [exact Ht|].
  pose proof (digit_value_range c Hc); lia.
Qed.

Lemma decimal_value_range t :
  decimal_token t -> 0 <= decimal_value t <= ULONG_MAX.
Proof.
  intros (_ & Hd & Hm); split; [|exact Hm].
  apply fold_digits_nonneg; [exact Hd|lia].
Qed.

Lemma stoul_decimal t : decimal_token t -> stoul t = Ok (decimal_value t).
Proof.
  intros Ht; pose proof (decimal_value_range t Ht) as Hr.
  destruct Ht as (Hne & Hd & Hm).
  destruct t as [|c t]; [contradiction|].
  pose proof Hd as Hd'.
  cbn [forallb] in Hd'; apply andb_true_iff in Hd'; destruct Hd' as [Hc _].
  unfold stoul; cbn [skip_space]; rewrite (isdigit_not_space c Hc).
  rewrite (isdigit_neq c "-"%char Hc eq_refl), (isdigit_neq c "+"%char Hc eq_refl).
  rewrite read_digits_all by (auto; left; discriminate).
  fold (decimal_value (c :: t)).
  destruct (Z.gtb_spec (decimal_value (c :: t)) ULONG_MAX); [lia|reflexivity].
Qed.

Lemma static_cast_ulong v :
  0 <= v <= ULONG_MAX -> static_cast uint64_t v = v.
Proof.
  intros H; apply static_cast_id; unfold representable, ULONG_MAX in *.
  cbn [is_signed]; change (2 ^ bit_width uint64_t) with (2 ^ 64); lia.
Qed.

(** ** setFromString *)

Lemma slot_in_bounds i : (i < keySize)%nat -> (i * 8 + 8 <= key_size_byte)%nat.
Proof. unfold key_size_byte; lia. Qed.

Lemma AddUnsignedInteger_slot v i k :
  well_formed k -> (i < keySize)%nat ->
  AddUnsignedInteger uint64_t v (i * 8) k
  = Normal tt (mkKey (splice (data k) (i * 8) (encode uint64_t v)))
  /\ well_formed (mkKey (splice (data k) (i * 8) (encode uint64_t v))).
Proof.
  intros W Hi; rewrite AddUnsignedInteger_spec by reflexivity.
  apply write_well_formed; [exact W | apply encode_bytes |].
  rewrite encode_length; now apply slot_in_bounds.
Qed.

Lemma slice_before_splice d offset src o n :
  (offset + length src <= length d)%nat -> (o + n <= offset)%nat ->
  slice o n (splice d offset src) = slice o n d.
Proof.
  intros Hin Hb.
  destruct (splice_same_outside d offset src Hin) as (_ & Hpre & _).
  assert (E : forall l, slice o n l = slice o n (firstn offset l)).
  { intros l; unfold slice.
    rewrite skipn_firstn_comm, firstn_firstn; f_equal; lia. }
  now rewrite (E (splice d offset src)), Hpre, <- E.
Qed.

Lemma pack_slots_spec vs : forall i k,
  well_formed k -> (i + length vs <= keySize)%nat ->
  exists k',
    pack_slots vs i k = Normal tt k'
    /\ well_formed k'
    /\ (forall j, (j < i)%nat ->
                  slice (j * 8) 8 (data k') = slice (j * 8) 8 (data k))
    /\ (forall j, (j < length vs)%nat ->
                  slice ((i + j) * 8) 8 (data k') = encode uint64_t (nth j vs 0)).
Proof.
  induction vs as [|v vs IH]; intros i k W Hn.
  - exists k; split; [reflexivity|]; split; [exact W|]; split; [reflexivity|].
    intros j Hj; cbn [length] in Hj; lia.
  - cbn [length] in Hn.
    destruct (AddUnsignedInteger_slot v i k W) as [E W1]; [lia|].
    destruct (IH (S i) _ W1) as (k' & E' & W' & Hlow & Hvs); [lia|].
    exists k'; cbn [pack_slots]; unfold bind; rewrite E.
    assert (Hin : (i * 8 + length (encode uint64_t v) <= length (data k))%nat).
    { rewrite encode_length; destruct W as [L _]; rewrite L.
      apply slot_in_bounds; lia. }
    split; [exact E'|]; split; [exact W'|]; split.
    + intros j Hj; rewrite Hlow by lia; cbn [data].
      apply slice_before_splice; [exact Hin | lia].
    + intros [|j] Hj.
      * rewrite Nat.add_0_r, Hlow by lia; cbn [data nth].
        change 8%nat with (length (encode uint64_t v)) at 2.
        now apply splice_slice.
      * cbn [nth]; rewrite <- (Hvs j) by (cbn [length] in Hj; lia).
        f_equal; lia.
Qed.

(** On well-formed input the loop packs the leading tokens, one per slot,
    until the tokens or the slots run out. *)
Lemma setFromString_loop_tokens toks : forall fuel i k,
  Forall decimal_token toks ->
  (length (join toks) < fuel)%nat -> (i < keySize)%nat -> well_formed k ->
  setFromString_loop fuel (join toks) i k
  = (pack_slots (firstn (keySize - i) (map decimal_value toks)) i ;;;
     ret (i + Nat.min (length toks) (keySize - i))%nat) k.
Proof.
  induction toks as [|t toks IH]; intros fuel i k Ht Hf Hi W;
    (destruct fuel as [|fuel]; [lia|]).
  - cbn; unfold bind, ret; now rewrite firstn_nil, Nat.add_0_r.
  - inversion Ht as [|? ? Hd Hts]; subst.
    cbn [setFromString_loop]; rewrite getline_join by exact Hd.
    rewrite stoul_decimal by exact Hd; cbn [lift].
    pose proof (join_length t toks Hd) as Hlen.
    destruct (AddUnsignedInteger_slot (decimal_value t) i k W Hi) as [E W1].
    rewrite bind_ret, static_cast_ulong by now apply decimal_value_range.
    rewrite (bind_Normal _ _ _ _ _ E).
    replace (keySize - i)%nat with (S (keySize - S i)) by lia.
    cbn [map firstn pack_slots length].
    rewrite bind_assoc, (bind_Normal _ _ _ _ _ E).
    rewrite <- Nat.succ_min_distr, Nat.add_succ_r.
    destruct (Nat.leb_spec keySize (S i)) as [Hk|Hk].
    + replace (keySize - S i)%nat with 0%nat by lia.
      now rewrite Nat.min_0_r, Nat.add_0_r.
    + rewrite IH by (auto; lia); reflexivity.
Qed.

Lemma setFromString_count_unfold key k :
  well_formed k ->
  setFromString_count key k
  = setFromString_loop (S (length (list_ascii_of_string key)))
      (list_ascii_of_string key) 0 (mkKey (repeat 0 key_size_byte)).
Proof.
  intros [L _]; unfold setFromString_count.
  now rewrite (bind_Normal _ _ _ _ _ (ZeroOut_spec k L)).
Qed.

(** C8. The input is [k] decimal tokens of [unsigned long] values separated
    by commas, the key has at least one slot.  Then [setFromString] returns,
    having packed min(k, keySize) tokens: the key is the zeroed key in
    which the values of the first min(k, keySize) tokens were packed as
    [uint64_t], token [i] at byte offset [i * 8], and nothing else; reading
    slot [i] back with [GetUnsignedInteger<uint64_t>] gives the value of
    token [i]. *)
Theorem setFromString_packs_tokens key toks k :
  (0 < keySize)%nat ->
  list_ascii_of_string key = join toks ->
  Forall decimal_token toks ->
  well_formed k ->
  exists k',
    setFromString key k = Normal tt k'
    /\ setFromString_count key k = Normal (Nat.min (length toks) keySize) k'
    /\ pack_slots (firstn keySize (map decimal_value toks)) 0
         (mkKey (repeat 0 key_size_byte)) = Normal tt k'
    /\ forall i, (i < Nat.min (length toks) keySize)%nat ->
         GetUnsignedInteger uint64_t (i * 8) k'
         = Normal (decimal_value (nth i toks [])) k'.
Proof.
  intros Hk Hkey Ht W.
  assert (Hc : setFromString_count key k
               = (pack_slots (firstn keySize (map decimal_value toks)) 0 ;;;
                  ret (Nat.min (length toks) keySize))
                   (mkKey (repeat 0 key_size_byte))).
  { rewrite setFromString_count_unfold, Hkey by exact W.
    rewrite setFromString_loop_tokens
      by (auto using zero_key_well_formed; lia).
    now rewrite Nat.sub_0_r. }
  set (vs := firstn keySize (map decimal_value toks)) in *.
  assert (Hvs : length vs = Nat.min (length toks) keySize).
  { unfold vs; rewrite length_firstn, length_map; lia. }
  destruct (pack_slots_spec vs 0 _ zero_key_well_formed)
    as (k' & E & [L B] & _ & Hslots); [lia|].
  rewrite (bind_Normal _ _ _ _ _ E) in Hc.
  exists k'; split; [|split; [exact Hc|split; [exact E|]]].
  - unfold setFromString; now rewrite (bind_Normal _ _ _ _ _ Hc).
  - intros i Hi.
    assert (Hin : (i * 8 + sizeof uint64_t <= length (data k'))%nat).
    { rewrite L; apply slot_in_bounds; lia. }
    rewrite GetUnsignedInteger_spec by (auto; exact Hin).
    change (sizeof uint64_t) with 8%nat.
    rewrite <- (Nat.add_0_l i), Hslots, Nat.add_0_l by lia.
    unfold vs; rewrite nth_firstn.
    destruct (Nat.ltb_spec i keySize); [|lia].
    change 0 with (decimal_value []); rewrite map_nth.
    rewrite decode_encode; [reflexivity|].
    assert (Hd : decimal_token (nth i toks [])).
    { apply (proj1 (Forall_forall _ _) Ht), nth_In; lia. }
    apply decimal_value_range in Hd.
    unfold representable, ULONG_MAX in *; cbn [is_signed].
    change (2 ^ bit_width uint64_t) with (2 ^ 64); lia.
Qed.

(** Slots that the loop has not reached stay zero. *)
Lemma setFromString_loop_zero_tail fuel : forall iss i k n k',
  (i < keySize)%nat -> well_formed k ->
  skipn (i * 8) (data k) = repeat 0 (key_size_byte - i * 8) ->
  setFromString_loop fuel iss i k = Normal n k' ->
  well_formed k'
  /\ skipn (n * 8) (data k') = repeat 0 (key_size_byte - n * 8)
  /\ (n <= keySize)%nat.
Proof.
  induction fuel as [|fuel IH]; intros iss i k n k' Hi W Hz E.
  - inversion E; subst; split; [exact W|split; [exact Hz|lia]].
  - cbn [setFromString_loop] in E.
    destruct (getline iss comma) as [[temp iss']|];
      [|inversion E; subst; split; [exact W|split; [exact Hz|lia]]].
    destruct (stoul temp) as [v|e]; [|discriminate E].
    cbn [lift] in E; rewrite bind_ret in E.
    destruct (AddUnsignedInteger_slot (static_cast uint64_t v) i k W Hi)
      as [Ew W1].
    rewrite (bind_Normal _ _ _ _ _ Ew) in E.
    assert (Hz1 : skipn (S i * 8)
                    (splice (data k) (i * 8)
                       (encode uint64_t (static_cast uint64_t v)))
                  = repeat 0 (key_size_byte - S i * 8)).
    { pose proof (slot_in_bounds i Hi) as Hb.
      destruct W as [L _].
      destruct (splice_same_outside (data k) (i * 8)
                  (encode uint64_t (static_cast uint64_t v)))
        as (_ & _ & Hpost); [rewrite encode_length; cbn [sizeof]; lia|].
      rewrite encode_length in Hpost; cbn [sizeof] in Hpost.
      replace (S i * 8)%nat with (i * 8 + 8)%nat by lia.
      rewrite Hpost, Nat.add_comm, <- skipn_skipn, Hz, skipn_repeat.
      f_equal; lia. }
    destruct (Nat.leb_spec keySize (S i)).
    + inversion E; subst; split; [exact W1|split; [exact Hz1|lia]].
    + eapply IH; [| exact W1 | exact Hz1 | exact E]; lia.
Qed.

(** [getline] consumes at least one character, so the fuel handed to the loop
    by [setFromString] is never exhausted: any larger amount gives the same
    outcome. *)
Lemma read_until_length delim s :
  (length (snd (read_until delim s)) <= length s)%nat.
Proof.
  induction s as [|c s IH]; [reflexivity|].
  cbn [read_until]; destruct (Ascii.eqb c delim); [cbn; lia|].
  destruct (read_until delim s) as [t r]; cbn [snd length] in *; lia.
Qed.

Lemma getline_shorter iss delim temp iss' :
  getline iss delim = Some (temp, iss') -> (length iss' < length iss)%nat.
Proof.
  destruct iss as [|c s]; [discriminate|].
  unfold getline; cbn [read_until]; intros H.
  destruct (Ascii.eqb c delim).
  - inversion H; subst; cbn; lia.
  - pose proof (read_until_length delim s) as Hl.
    destruct (read_until delim s) as [t r]; inversion H; subst.
    cbn [snd length] in *; lia.
Qed.

Lemma setFromString_loop_fuel fuel : forall fuel' iss i k,
  (length iss < fuel)%nat -> (length iss < fuel')%nat ->
  setFromString_loop fuel iss i k = setFromString_loop fuel' iss i k.
Proof.
  induction fuel as [|fuel IH]; intros [|fuel'] iss i k H H'; try lia.
  cbn [setFromString_loop].
  destruct (getline iss comma) as [[temp iss']|] eqn:G; [|reflexivity].
  apply getline_shorter in G.
  unfold bind; destruct (lift (stoul temp) k) as [v k1|e k1|]; try reflexivity.
  destruct (AddUnsignedInteger uint64_t (static_cast uint64_t v) (i * 8) k1)
    as [[] k2|e k2|]; try reflexivity.
  destruct (keySize <=? S i)%nat; [reflexivity|].
  apply IH; lia.
Qed.

(** With at least one slot the loop stays inside the array. *)
Lemma setFromString_loop_defined fuel : forall iss i k,
  (i < keySize)%nat -> well_formed k ->
  setFromString_loop fuel iss i k <> Undefined.
Proof.
  induction fuel as [|fuel IH]; intros iss i k Hi W; [discriminate|].
  cbn [setFromString_loop].
  destruct (getline iss comma) as [[temp iss']|]; [|discriminate].
  destruct (stoul temp) as [v|e]; [|discriminate].
  cbn [lift]; rewrite bind_ret.
  destruct (AddUnsignedInteger_slot (static_cast uint64_t v) i k W Hi) as [E W1].
  rewrite (bind_Normal _ _ _ _ _ E).
  destruct (Nat.leb_spec keySize (S i)); [discriminate|].
  apply IH; [lia | exact W1].
Qed.

Lemma setFromString_defined key k :
  (0 < keySize)%nat -> well_formed k -> setFromString key k <> Undefined.
Proof.
  intros Hk W; unfold setFromString.
  pose proof (setFromString_loop_defined
                (S (length (list_ascii_of_string key)))
                (list_ascii_of_string key) 0 _ Hk zero_key_well_formed) as H.
  rewrite <- (setFromString_count_unfold key k W) in H.
  unfold bind, ret; destruct (setFromString_count key k);
    [discriminate | discriminate | contradiction].
Qed.

(** C10. [setFromString] with the same text on two keys of one
    instantiation, whatever they held before, has the same outcome and
    leaves the two arrays identical (with at least one slot the call returns
    or throws, it never leaves the array); and when the call returns, having
    packed [n] tokens, every slot from [n] on reads 0 with
    [GetUnsignedInteger<uint64_t>]. *)
Theorem setFromString_erases_prior_content key k1 k2 :
  well_formed k1 -> well_formed k2 ->
  setFromString key k1 = setFromString key k2
  /\ setFromString_count key k1 = setFromString_count key k2
  /\ ((0 < keySize)%nat -> setFromString key k1 <> Undefined)
  /\ forall n k',
      setFromString_count key k1 = Normal n k' ->
      forall i, (n <= i < keySize)%nat ->
                GetUnsignedInteger uint64_t (i * 8) k' = Normal 0 k'.
Proof.
  intros W1 W2.
  assert (Hc : setFromString_count key k1 = setFromString_count key k2)
    by now rewrite !setFromString_count_unfold.
  split; [unfold setFromString, bind; now rewrite Hc|].
  split; [exact Hc|].
  split; [intros Hk; now apply setFromString_defined|].
  intros n k' E i Hi.
  rewrite setFromString_count_unfold in E by exact W1.
  apply setFromString_loop_zero_tail in E;
    [| lia | apply zero_key_well_formed
     | cbn [data]; rewrite skipn_repeat; reflexivity].
  destruct E as ([L B] & Hz & Hn).
  assert (Hb : (i * 8 + 8 <= key_size_byte)%nat) by (apply slot_in_bounds; lia).
  rewrite GetUnsignedInteger_spec by (auto; cbn [sizeof]; lia).
  replace (slice (i * 8) (sizeof uint64_t) (data k')) with (repeat 0 8);
    [reflexivity|].
  unfold slice; replace (i * 8)%nat with ((i - n) * 8 + n * 8)%nat by lia.
  rewrite <- skipn_skipn, Hz, skipn_repeat.
  symmetry; apply firstn_repeat; cbn [sizeof]; lia.
Qed.

(** * Further properties of the code *)

(** ** The sign flip and the byte-order conversions on all eight types *)

Lemma land_pow2_small n x : 0 <= n -> 0 <= x < 2 ^ n -> Z.land x (2 ^ n) = 0.
Proof.
  intros Hn Hx; apply Z.bits_inj'; intros i Hi.
  rewrite Z.land_spec, Z.bits_0, Z.pow2_bits_eqb by lia.
  destruct (Z.eqb_spec n i) as [<-|]; [|apply andb_false_r].
  rewrite andb_true_r; apply Z.testbit_false; [lia|].
  now rewrite Z.div_small.
Qed.

Lemma lxor_pow2 n x :
  0 <= n -> 0 <= x < 2 * 2 ^ n ->
  Z.lxor x (2 ^ n) = if x <? 2 ^ n then x + 2 ^ n else x - 2 ^ n.
Proof.
  intros Hn Hx; destruct (Z.ltb_spec x (2 ^ n)).
  - rewrite <- Z.add_nocarry_lxor by (apply land_pow2_small; lia); lia.
  - assert (E : x = Z.lxor (x - 2 ^ n) (2 ^ n)).
    { rewrite <- Z.add_nocarry_lxor by (apply land_pow2_small; lia); lia. }
    rewrite E at 1.
    now rewrite Z.lxor_assoc, Z.lxor_nilpotent, Z.lxor_0_r.
Qed.

Lemma sign_mask_unsigned ty :
  is_signed ty = false ->
  static_cast ty (Z.shiftl (static_cast ty 1) (bit_width ty - 1))
  = 2 ^ (bit_width ty - 1).
Proof. destruct ty; intros H; try discriminate H; reflexivity. Qed.

Lemma bit_width_pred_nonneg ty : 0 <= bit_width ty - 1.
Proof. destruct ty; cbn; lia. Qed.

Lemma SignFlip_unsigned ty x :
  is_signed ty = false -> representable ty x ->
  SignFlip ty x
  = if x <? 2 ^ (bit_width ty - 1)
    then x + 2 ^ (bit_width ty - 1) else x - 2 ^ (bit_width ty - 1).
Proof.
  intros Hs Hx; unfold SignFlip; cbv zeta; rewrite (sign_mask_unsigned ty Hs).
  pose proof (half_range_pos ty) as Hp.
  unfold representable in Hx; rewrite Hs, bit_width_split in Hx.
  rewrite lxor_pow2 by (solve [exact Hx | apply bit_width_pred_nonneg]).
  apply static_cast_id; unfold representable; rewrite Hs, bit_width_split.
  destruct (Z.ltb_spec x (2 ^ (bit_width ty - 1))); lia.
Qed.

Lemma SignFlip_representable ty x : representable ty (SignFlip ty x).
Proof. unfold SignFlip; apply static_cast_representable. Qed.

Lemma SignFlip_twice ty x :
  representable ty x ->
  SignFlip ty (SignFlip ty x) = x
  /\ Z.abs (SignFlip ty x - x) = 2 ^ (bit_width ty - 1).
Proof.
  intros Hx; pose proof (half_range_pos ty) as Hp.
  pose proof (SignFlip_representable ty x) as Hy.
  destruct (is_signed ty) eqn:Hs.
  - rewrite (SignFlip_signed ty (SignFlip ty x)) by assumption.
    rewrite (SignFlip_signed ty x) in * by assumption.
    unfold representable in Hx; rewrite Hs in Hx.
    destruct (Z.ltb_spec x 0);
      match goal with |- context [?a <? 0] => destruct (Z.ltb_spec a 0) end;
      lia.
  - rewrite (SignFlip_unsigned ty (SignFlip ty x)) by assumption.
    rewrite (SignFlip_unsigned ty x) in * by assumption.
    unfold representable in Hx; rewrite Hs, bit_width_split in Hx.
    destruct (Z.ltb_spec x (2 ^ (bit_width ty - 1)));
      match goal with
      | |- context [?a <? 2 ^ ?n] => destruct (Z.ltb_spec a (2 ^ n))
      end; lia.
Qed.

(** X1. [SignFlip] is its own inverse on the values of each of the eight
    types, and it moves every value by exactly half the range of the type:
    it never returns its argument. *)
Theorem SignFlip_involutive ty x :
  representable ty x ->
  SignFlip ty (SignFlip ty x) = x
  /\ Z.abs (SignFlip ty x - x) = 2 ^ (bit_width ty - 1).
Proof.
  intros Hx; pose proof (half_range_pos ty) as Hp.
  pose proof (SignFlip_representable ty x) as Hy.
  destruct (is_signed ty) eqn:Hs.
  - rewrite (SignFlip_signed ty (SignFlip ty x)) by assumption.
    rewrite (SignFlip_signed ty x) in * by assumption.
    unfold representable in Hx; rewrite Hs in Hx.
    destruct (Z.ltb_spec x 0);
      match goal with |- context [?a <? 0] => destruct (Z.ltb_spec a 0) end;
      lia.
  - rewrite (SignFlip_unsigned ty (SignFlip ty x)) by assumption.
    rewrite (SignFlip_unsigned ty x) in * by assumption.
    unfold representable in Hx; rewrite Hs, bit_width_split in Hx.
    destruct (Z.ltb_spec x (2 ^ (bit_width ty - 1)));
      match goal with
      | |- context [?a <? 2 ^ ?n] => destruct (Z.ltb_spec a (2 ^ n))
      end; lia.
Qed.

Lemma bswap_involutive w x :
  0 <= x < 256 ^ Z.of_nat w -> bswap w (bswap w x) = x.
Proof.
  intros Hx; unfold bswap.
  rewrite <- (to_le_length w x) at 1; rewrite <- length_rev.
  rewrite to_le_from_le by apply Forall_rev, to_le_bytes.
  rewrite rev_involutive, from_le_to_le; now apply Z.mod_small.
Qed.

Lemma betoh_htobe w x : 0 <= x < 256 ^ Z.of_nat w -> betoh w (htobe w x) = x.
Proof.
  intros Hx; unfold betoh, htobe; destruct host;
    [now apply bswap_involutive | reflexivity].
Qed.

Lemma make_unsigned_cast ty x :
  0 <= static_cast (make_unsigned ty) x < 256 ^ Z.of_nat (sizeof ty).
Proof.
  rewrite pow256_sizeof.
  pose proof (static_cast_representable (make_unsigned ty) x) as H.
  destruct ty; exact H.
Qed.

Lemma cast_back ty x :
  representable ty x -> static_cast ty (static_cast (make_unsigned ty) x) = x.
Proof.
  intros Hx; rewrite <- (static_cast_id ty x Hx) at 2.
  pose proof (half_range_pos ty) as Hp.
  assert (E : static_cast (make_unsigned ty) x = x mod 2 ^ bit_width ty)
    by (destruct ty; reflexivity).
  rewrite E; unfold static_cast; destruct (is_signed ty).
  - now rewrite Z.add_mod_idemp_l by (rewrite bit_width_split; lia).
  - rewrite Z.mod_mod by (rewrite bit_width_split; lia); reflexivity.
Qed.

(** X2. Converting a value of any of the eight types to big endian and back
    to host order, with the overload for the unsigned type that
    [ToBigEndian] returns, gives the value back, on either host. *)
Theorem ToHostEndian_ToBigEndian ty x :
  representable ty x ->
  static_cast ty (ToHostEndian (make_unsigned ty) (ToBigEndian ty x)) = x.
Proof.
  intros Hx; rewrite <- (cast_back ty x Hx) at 2; f_equal.
  pose proof (make_unsigned_cast ty x) as Hu.
  assert (Hid : is_signed ty = false -> static_cast (make_unsigned ty) x = x).
  { intros Hs; apply static_cast_id; destruct ty; try discriminate Hs; exact Hx. }
  destruct ty; cbn [ToBigEndian ToHostEndian make_unsigned] in *;
    unfold TwoBytesToBigEndian, FourBytesToBigEndian, EightBytesToBigEndian,
      TwoBytesToHostEndian, FourBytesToHostEndian, EightBytesToHostEndian;
    rewrite ?(Hid eq_refl); try reflexivity;
    try (apply betoh_htobe; exact Hu);
    apply betoh_htobe; rewrite <- (Hid eq_refl); exact Hu.
Qed.

(** ** The bytes behind every instantiation of the four accessors *)

Lemma AddInteger_bytes ty x offset :
  AddInteger ty x offset = write offset (to_be (sizeof ty) (SignFlip ty x)).
Proof. unfold AddInteger, store; cbv zeta; now rewrite bytes_of_ToBigEndian. Qed.

Lemma AddUnsignedInteger_bytes ty x offset :
  AddUnsignedInteger ty x offset = write offset (to_be (sizeof ty) x).
Proof. unfold AddUnsignedInteger, store; cbv zeta; now rewrite bytes_of_ToBigEndian. Qed.

Lemma GetUnsignedInteger_bytes ty offset k :
  Forall is_byte (data k) ->
  (offset + sizeof ty <= length (data k))%nat ->
  GetUnsignedInteger ty offset k
  = Normal (static_cast ty (from_be (slice offset (sizeof ty) (data k)))) k.
Proof.
  intros Hb Hin; unfold GetUnsignedInteger.
  rewrite (bind_Normal _ _ _ _ _ (load_in_bounds ty offset k Hin)).
  rewrite ToHostEndian_load;
    [reflexivity | now apply slice_length | now apply slice_bytes].
Qed.

Lemma GetInteger_bytes ty offset k :
  Forall is_byte (data k) ->
  (offset + sizeof ty <= length (data k))%nat ->
  GetInteger ty offset k
  = Normal (SignFlip ty (static_cast ty (from_be (slice offset (sizeof ty) (data k))))) k.
Proof.
  intros Hb Hin; unfold GetInteger.
  rewrite (bind_Normal _ _ _ _ _ (load_in_bounds ty offset k Hin)).
  rewrite ToHostEndian_load;
    [reflexivity | now apply slice_length | now apply slice_bytes].
Qed.

Lemma static_cast_mod ty x :
  static_cast ty (x mod 256 ^ Z.of_nat (sizeof ty)) = static_cast ty x.
Proof.
  pose proof (half_range_pos ty) as Hp.
  rewrite pow256_sizeof; unfold static_cast; destruct (is_signed ty).
  - now rewrite Z.add_mod_idemp_l by (rewrite bit_width_split; lia).
  - now rewrite Z.mod_mod by (rewrite bit_width_split; lia).
Qed.

(** Storing the big-endian bytes of [y] in a field of type [ty] and reading
    the field with either getter. *)
Lemma write_then_get ty y offset k :
  well_formed k -> (offset + sizeof ty <= key_size_byte)%nat ->
  exists k',
    write offset (to_be (sizeof ty) y) k = Normal tt k'
    /\ well_formed k'
    /\ GetUnsignedInteger ty offset k' = Normal (static_cast ty y) k'
    /\ GetInteger ty offset k' = Normal (SignFlip ty (static_cast ty y)) k'.
Proof.
  intros W Hin.
  destruct (write_well_formed offset (to_be (sizeof ty) y) k W) as [E W'];
    [apply to_be_bytes | now rewrite to_be_length |].
  eexists; split; [exact E|]; split; [exact W'|].
  destruct W as [L B]; destruct W' as [L' B'].
  assert (Hsl : slice offset (sizeof ty)
                  (splice (data k) offset (to_be (sizeof ty) y))
                = to_be (sizeof ty) y).
  { rewrite <- (to_be_length (sizeof ty) y) at 1; apply splice_slice.
    rewrite to_be_length; lia. }
  rewrite GetUnsignedInteger_bytes, GetInteger_bytes by (auto; lia).
  cbn [data]; now rewrite Hsl, from_be_to_be, static_cast_mod.
Qed.

(** X3. Each pair of accessors is a round trip on every one of the eight
    types, not only on the types of its own signedness: [GetInteger] after
    [AddInteger], and [GetUnsignedInteger] after [AddUnsignedInteger], at the
    same type and in-bounds offset, return the packed value. *)
Theorem round_trip_any_type ty v offset k :
  representable ty v ->
  well_formed k ->
  (offset + sizeof ty <= key_size_byte)%nat ->
  (exists k', AddInteger ty v offset k = Normal tt k'
              /\ GetInteger ty offset k' = Normal v k')
  /\ (exists k', AddUnsignedInteger ty v offset k = Normal tt k'
                 /\ GetUnsignedInteger ty offset k' = Normal v k').
Proof.
  intros Hv W Hin; split.
  - destruct (write_then_get ty (SignFlip ty v) offset k W Hin)
      as (k' & E & _ & _ & G).
    exists k'; rewrite AddInteger_bytes; split; [exact E|].
    rewrite G, static_cast_id by apply SignFlip_representable.
    now rewrite (proj1 (SignFlip_twice ty v Hv)).
  - destruct (write_then_get ty v offset k W Hin) as (k' & E & _ & G & _).
    exists k'; rewrite AddUnsignedInteger_bytes; split; [exact E|].
    now rewrite G, static_cast_id.
Qed.

(** X4. Reading a field with the getter of the other family does not give
    the packed value: [GetUnsignedInteger] after [AddInteger], and
    [GetInteger] after [AddUnsignedInteger], return the sign flip of the
    value, which is half the range of the type away from it. *)
Theorem getter_of_other_family ty v offset k :
  representable ty v ->
  well_formed k ->
  (offset + sizeof ty <= key_size_byte)%nat ->
  (exists k', AddInteger ty v offset k = Normal tt k'
              /\ GetUnsignedInteger ty offset k' = Normal (SignFlip ty v) k')
  /\ (exists k', AddUnsignedInteger ty v offset k = Normal tt k'
                 /\ GetInteger ty offset k' = Normal (SignFlip ty v) k')
  /\ Z.abs (SignFlip ty v - v) = 2 ^ (bit_width ty - 1).
Proof.
  intros Hv W Hin; split; [|split; [|now apply SignFlip_twice]].
  - destruct (write_then_get ty (SignFlip ty v) offset k W Hin)
      as (k' & E & _ & G & _).
    exists k'; rewrite AddInteger_bytes; split; [exact E|].
    now rewrite G, static_cast_id by apply SignFlip_representable.
  - destruct (write_then_get ty v offset k W Hin) as (k' & E & _ & _ & G).
    exists k'; rewrite AddUnsignedInteger_bytes; split; [exact E|].
    now rewrite G, static_cast_id.
Qed.

(** ** Layout of a packed field *)

Lemma nth_error_to_le w : forall x i,
  (i < w)%nat ->
  nth_error (to_le w x) i = Some ((x / 256 ^ Z.of_nat i) mod 256).
Proof.
  induction w as [|w IH]; intros x [|i] Hi; try lia.
  - cbn [to_le nth_error]; now rewrite Z.pow_0_r, Z.div_1_r.
  - cbn [to_le nth_error]; rewrite IH by lia.
    rewrite pow256_succ, Z.div_div by (pose proof (pow256_pos i); lia).
    reflexivity.
Qed.

Lemma nth_error_to_be w x i :
  (i < w)%nat ->
  nth_error (to_be w x) i = Some ((x / 256 ^ Z.of_nat (w - 1 - i)) mod 256).
Proof.
  intros Hi; unfold to_be; rewrite nth_error_rev, to_le_length.
  destruct (Nat.ltb_spec i w); [|lia].
  rewrite nth_error_to_le by lia.
  now replace (w - S i)%nat with (w - 1 - i)%nat by lia.
Qed.

Lemma nth_error_splice d offset src i :
  (offset + length src <= length d)%nat ->
  nth_error (splice d offset src) i
  = if (i <? offset)%nat then nth_error d i
    else if (i <? offset + length src)%nat then nth_error src (i - offset)
         else nth_error d i.
Proof.
  intros Hin; unfold splice.
  rewrite nth_error_app, length_firstn, Nat.min_l by lia.
  destruct (Nat.ltb_spec i offset).
  - rewrite nth_error_firstn; destruct (Nat.ltb_spec i offset); [reflexivity|lia].
  - rewrite nth_error_app.
    destruct (Nat.ltb_spec (i - offset) (length src));
      destruct (Nat.ltb_spec i (offset + length src)); try lia; [reflexivity|].
    rewrite nth_error_skipn; f_equal; lia.
Qed.

(** X5. The layout of a packed field: byte [i] of the field is the [i]-th
    most significant byte of the value for [AddUnsignedInteger], and of the
    value plus 2^(bits-1) for [AddInteger] on a signed type, whatever the byte
    order of the host. *)
Theorem packed_field_is_big_endian ty v offset k :
  representable ty v ->
  well_formed k ->
  (offset + sizeof ty <= key_size_byte)%nat ->
  (exists k',
      AddUnsignedInteger ty v offset k = Normal tt k'
      /\ forall i, (i < sizeof ty)%nat ->
           nth_error (data k') (offset + i)
           = Some ((v / 256 ^ Z.of_nat (sizeof ty - 1 - i)) mod 256))
  /\ (is_signed ty = true ->
      exists k',
        AddInteger ty v offset k = Normal tt k'
        /\ forall i, (i < sizeof ty)%nat ->
             nth_error (data k') (offset + i)
             = Some (((v + 2 ^ (bit_width ty - 1))
                        / 256 ^ Z.of_nat (sizeof ty - 1 - i)) mod 256)).
Proof.
  intros Hv [L B] Hin.
  assert (Hb : forall y i, (i < sizeof ty)%nat ->
             nth_error (splice (data k) offset (to_be (sizeof ty) y)) (offset + i)
             = Some ((y / 256 ^ Z.of_nat (sizeof ty - 1 - i)) mod 256)).
  { intros y i Hi.
    rewrite nth_error_splice by (rewrite to_be_length; lia).
    rewrite to_be_length.
    destruct (Nat.ltb_spec (offset + i) offset); [lia|].
    destruct (Nat.ltb_spec (offset + i) (offset + sizeof ty)); [|lia].
    replace (offset + i - offset)%nat with i by lia.
    now apply nth_error_to_be. }
  split; [|intros Hs].
  - rewrite AddUnsignedInteger_bytes, write_in_bounds
      by (rewrite to_be_length; lia).
    eexists; split; [reflexivity|]; cbn [data]; apply Hb.
  - rewrite AddInteger_spec, write_in_bounds
      by (rewrite ?encode_length; solve [assumption | lia]).
    eexists; split; [reflexivity|]; cbn [data].
    unfold encode, biased; rewrite Hs; apply Hb.
Qed.

(** ** Packing several fields *)

Lemma skipn_splice_after d offset src o :
  (offset + length src <= length d)%nat -> (offset + length src <= o)%nat ->
  skipn o (splice d offset src) = skipn o d.
Proof.
  intros Hin Ho.
  destruct (splice_same_outside d offset src Hin) as (_ & _ & Hpost).
  replace o with ((o - (offset + length src)) + (offset + length src))%nat by lia.
  rewrite <- (skipn_skipn _ (offset + length src) (splice d offset src)).
  rewrite <- (skipn_skipn _ (offset + length src) d).
  now rewrite Hpost.
Qed.

Lemma slice_after_splice d offset src o n :
  (offset + length src <= length d)%nat -> (offset + length src <= o)%nat ->
  slice o n (splice d offset src) = slice o n d.
Proof. intros Hin Ho; unfold slice; now rewrite skipn_splice_after. Qed.

Lemma splice_splice_same d offset s1 s2 :
  length s1 = length s2 -> (offset + length s1 <= length d)%nat ->
  splice (splice d offset s1) offset s2 = splice d offset s2.
Proof.
  intros Hl Hin.
  destruct (splice_same_outside d offset s1 Hin) as (_ & Hpre & Hpost).
  unfold splice at 1 3; now rewrite <- Hl, Hpre, Hpost.
Qed.

Lemma splice_splice_disjoint d o1 s1 o2 s2 :
  (o1 + length s1 <= o2)%nat -> (o2 + length s2 <= length d)%nat ->
  splice (splice d o1 s1) o2 s2 = splice (splice d o2 s2) o1 s1.
Proof.
  intros H1 H2; apply nth_error_ext; intros i.
  rewrite !nth_error_splice by (rewrite ?splice_length; lia).
  destruct (Nat.ltb_spec i o2), (Nat.ltb_spec i o1),
    (Nat.ltb_spec i (o1 + length s1)), (Nat.ltb_spec i (o2 + length s2));
    try lia; reflexivity.
Qed.

Lemma write_write_disjoint o1 s1 o2 s2 k :
  (o1 + length s1 <= o2)%nat -> (o2 + length s2 <= length (data k))%nat ->
  (write o1 s1 ;;; write o2 s2) k = (write o2 s2 ;;; write o1 s1) k
  /\ (write o1 s1 ;;; write o2 s2) k <> Undefined.
Proof.
  intros H1 H2; unfold bind.
  rewrite (write_in_bounds o1 s1 k), (write_in_bounds o2 s2 k) by lia.
  rewrite !write_in_bounds by (cbn [data]; rewrite splice_length; lia).
  cbn [data]; rewrite splice_splice_disjoint by assumption.
  split; [reflexivity|discriminate].
Qed.

Lemma write_write_same offset s1 s2 k :
  length s1 = length s2 ->
  (write offset s1 ;;; write offset s2) k = write offset s2 k.
Proof.
  intros Hl; unfold bind.
  destruct (Nat.leb_spec (offset + length s1) (length (data k))) as [Hin|Hout].
  - rewrite (write_in_bounds offset s1 k Hin).
    rewrite !write_in_bounds
      by (cbn [data]; rewrite ?splice_length; lia).
    cbn [data]; now rewrite splice_splice_same.
  - rewrite !write_out_of_bounds by lia; reflexivity.
Qed.

(** X6. Packing two fields that do not overlap gives the same key in either
    order, for any combination of [AddInteger] and [AddUnsignedInteger]; the
    calls return when both fields are in bounds. *)
Theorem disjoint_packs_commute ty1 v1 offset1 ty2 v2 offset2 k :
  well_formed k ->
  (offset1 + sizeof ty1 <= offset2)%nat ->
  (offset2 + sizeof ty2 <= key_size_byte)%nat ->
  ((AddInteger ty1 v1 offset1 ;;; AddInteger ty2 v2 offset2) k
   = (AddInteger ty2 v2 offset2 ;;; AddInteger ty1 v1 offset1) k
   /\ (AddInteger ty1 v1 offset1 ;;; AddInteger ty2 v2 offset2) k <> Undefined)
  /\ ((AddUnsignedInteger ty1 v1 offset1 ;;; AddUnsignedInteger ty2 v2 offset2) k
      = (AddUnsignedInteger ty2 v2 offset2 ;;; AddUnsignedInteger ty1 v1 offset1) k
      /\ (AddUnsignedInteger ty1 v1 offset1 ;;; AddUnsignedInteger ty2 v2 offset2) k
         <> Undefined)
  /\ ((AddInteger ty1 v1 offset1 ;;; AddUnsignedInteger ty2 v2 offset2) k
      = (AddUnsignedInteger ty2 v2 offset2 ;;; AddInteger ty1 v1 offset1) k
      /\ (AddInteger ty1 v1 offset1 ;;; AddUnsignedInteger ty2 v2 offset2) k
         <> Undefined)
  /\ ((AddUnsignedInteger ty1 v1 offset1 ;;; AddInteger ty2 v2 offset2) k
      = (AddInteger ty2 v2 offset2 ;;; AddUnsignedInteger ty1 v1 offset1) k
      /\ (AddUnsignedInteger ty1 v1 offset1 ;;; AddInteger ty2 v2 offset2) k
         <> Undefined).
Proof.
  intros [L _] H1 H2.
  rewrite !AddInteger_bytes, !AddUnsignedInteger_bytes.
  repeat split;
    apply write_write_disjoint; rewrite to_be_length; lia.
Qed.

(** X7. Packing twice at the same offset with the same type keeps the second
    value only: the key is the one a single call with the second value
    gives, and out of bounds both are undefined. *)
Theorem second_pack_wins ty v1 v2 offset k :
  (AddInteger ty v1 offset ;;; AddInteger ty v2 offset) k
  = AddInteger ty v2 offset k
  /\ (AddUnsignedInteger ty v1 offset ;;; AddUnsignedInteger ty v2 offset) k
     = AddUnsignedInteger ty v2 offset k
  /\ (AddInteger ty v1 offset ;;; AddUnsignedInteger ty v2 offset) k
     = AddUnsignedInteger ty v2 offset k
  /\ (AddUnsignedInteger ty v1 offset ;;; AddInteger ty v2 offset) k
     = AddInteger ty v2 offset k.
Proof.
  rewrite !AddInteger_bytes, !AddUnsignedInteger_bytes.
  repeat split; apply write_write_same; now rewrite !to_be_length.
Qed.

(** X8. Packing a field does not change what the getters read from a field
    that does not overlap it. *)
Theorem disjoint_field_unchanged ty1 v offset1 ty2 offset2 k :
  well_formed k ->
  (offset1 + sizeof ty1 <= key_size_byte)%nat ->
  (offset2 + sizeof ty2 <= key_size_byte)%nat ->
  (offset1 + sizeof ty1 <= offset2 \/ offset2 + sizeof ty2 <= offset1)%nat ->
  exists r u,
    GetInteger ty2 offset2 k = Normal r k
    /\ GetUnsignedInteger ty2 offset2 k = Normal u k
    /\ (exists k', AddInteger ty1 v offset1 k = Normal tt k'
                   /\ GetInteger ty2 offset2 k' = Normal r k'
                   /\ GetUnsignedInteger ty2 offset2 k' = Normal u k')
    /\ (exists k', AddUnsignedInteger ty1 v offset1 k = Normal tt k'
                   /\ GetInteger ty2 offset2 k' = Normal r k'
                   /\ GetUnsignedInteger ty2 offset2 k' = Normal u k').
Proof.
  intros W H1 H2 Hd.
  assert (Hw : forall y,
    exists k', write offset1 (to_be (sizeof ty1) y) k = Normal tt k'
      /\ well_formed k'
      /\ slice offset2 (sizeof ty2) (data k') = slice offset2 (sizeof ty2) (data k)).
  { intros y.
    destruct (write_well_formed offset1 (to_be (sizeof ty1) y) k W) as [E W'];
      [apply to_be_bytes | now rewrite to_be_length |].
    eexists; split; [exact E|]; split; [exact W'|]; cbn [data].
    destruct W as [L _].
    destruct Hd;
      [apply slice_after_splice | apply slice_before_splice];
      rewrite ?to_be_length; lia. }
  destruct W as [L B].
  rewrite GetInteger_bytes, GetUnsignedInteger_bytes by (auto; lia).
  eexists; eexists; split; [reflexivity|]; split; [reflexivity|].
  rewrite AddInteger_bytes, AddUnsignedInteger_bytes.
  split;
    [destruct (Hw (SignFlip ty1 v)) as (k' & E & [L' B'] & Hs)
    |destruct (Hw v) as (k' & E & [L' B'] & Hs)];
    (exists k'; split; [exact E|]);
    rewrite GetInteger_bytes, GetUnsignedInteger_bytes by (auto; lia);
    now rewrite Hs.
Qed.

(** ** Order and equality of packed keys *)

Lemma Compare_after_write offset e1 e2 k1 k2 :
  well_formed k1 -> well_formed k2 ->
  Forall is_byte e1 -> Forall is_byte e2 -> length e1 = length e2 ->
  (offset + length e1 <= key_size_byte)%nat ->
  same_outside offset (length e1) (data k1) (data k2) ->
  exists ka kb,
    write offset e1 k1 = Normal tt ka
    /\ write offset e2 k2 = Normal tt kb
    /\ (Compare ka kb ?= 0) = lex_compare e1 e2.
Proof.
  intros W1 W2 B1 B2 Hl Hin Hout.
  destruct (write_well_formed offset e1 k1 W1 B1 Hin) as [Ea [La _]].
  destruct (write_well_formed offset e2 k2 W2 B2) as [Eb [Lb _]]; [lia|].
  eexists; eexists; split; [exact Ea|]; split; [exact Eb|].
  rewrite Compare_sign by assumption; cbn [data].
  now apply lex_compare_splice.
Qed.

Lemma Equals_compare a b : Equals a b = true <-> (Compare a b ?= 0) = Eq.
Proof. unfold Equals; rewrite Z.eqb_eq; symmetry; apply Z.compare_eq_iff. Qed.

Lemma LessThan_compare a b : LessThan a b = true <-> (Compare a b ?= 0) = Lt.
Proof. unfold LessThan; now rewrite Z.ltb_lt. Qed.

(** X9. The three-way result of [Compare] on two keys that differ in one
    packed field is the three-way comparison of the packed values: for
    [AddInteger] on the signed types and for [AddUnsignedInteger] on the
    unsigned types.  In particular the keys satisfy [Equals] exactly when the
    values are equal. *)
Theorem packed_field_three_way ty a b offset k1 k2 :
  representable ty a -> representable ty b ->
  well_formed k1 -> well_formed k2 ->
  (offset + sizeof ty <= key_size_byte)%nat ->
  same_outside offset (sizeof ty) (data k1) (data k2) ->
  (is_signed ty = true ->
   exists ka kb,
     AddInteger ty a offset k1 = Normal tt ka
     /\ AddInteger ty b offset k2 = Normal tt kb
     /\ (Compare ka kb ?= 0) = (a ?= b)
     /\ (Equals ka kb = true <-> a = b))
  /\ (is_signed ty = false ->
      exists ka kb,
        AddUnsignedInteger ty a offset k1 = Normal tt ka
        /\ AddUnsignedInteger ty b offset k2 = Normal tt kb
        /\ (Compare ka kb ?= 0) = (a ?= b)
        /\ (Equals ka kb = true <-> a = b)).
Proof.
  intros Ha Hb W1 W2 Hin Hout.
  destruct (Compare_after_write offset (encode ty a) (encode ty b) k1 k2)
    as (ka & kb & Ea & Eb & Hc);
    rewrite ?encode_length; auto using encode_bytes.
  rewrite lex_compare_encode in Hc by assumption.
  split; intros Hs; exists ka, kb;
    rewrite ?AddInteger_spec, ?AddUnsignedInteger_spec by assumption;
    (split; [exact Ea|]; split; [exact Eb|]; split; [exact Hc|]);
    now rewrite Equals_compare, Hc, Z.compare_eq_iff.
Qed.

(** X10. What the sign flip is for: a negative and a non-negative value of a
    signed type packed with [AddUnsignedInteger] compare the wrong way
    round, the key of the negative value is the greater one. *)
Theorem unsigned_pack_reverses_sign ty a b offset k1 k2 :
  is_signed ty = true ->
  representable ty a -> representable ty b ->
  a < 0 <= b ->
  well_formed k1 -> well_formed k2 ->
  (offset + sizeof ty <= key_size_byte)%nat ->
  same_outside offset (sizeof ty) (data k1) (data k2) ->
  exists ka kb,
    AddUnsignedInteger ty a offset k1 = Normal tt ka
    /\ AddUnsignedInteger ty b offset k2 = Normal tt kb
    /\ Compare ka kb > 0.
Proof.
  intros Hs Ha Hb Hab W1 W2 Hin Hout.
  destruct (Compare_after_write offset
              (to_be (sizeof ty) a) (to_be (sizeof ty) b) k1 k2)
    as (ka & kb & Ea & Eb & Hc);
    rewrite ?to_be_length; auto using to_be_bytes.
  exists ka, kb; rewrite !AddUnsignedInteger_bytes.
  split; [exact Ea|]; split; [exact Eb|].
  unfold Z.gt; rewrite Hc.
  pose proof (half_range_pos ty) as Hp.
  unfold representable in Ha, Hb; rewrite Hs in Ha, Hb.
  rewrite <- (to_be_mod _ a), pow256_sizeof.
  replace (a mod 2 ^ bit_width ty) with (a + 2 ^ bit_width ty).
  - rewrite lex_compare_to_be
      by (rewrite pow256_sizeof, bit_width_split; lia).
    apply Z.compare_gt_iff; rewrite bit_width_split; lia.
  - replace (a + 2 ^ bit_width ty) with (a + 1 * 2 ^ bit_width ty) by lia.
    symmetry; rewrite <- (Z.mod_add a 1) by (rewrite bit_width_split; lia).
    apply Z.mod_small; rewrite bit_width_split in *; lia.
Qed.

Lemma lex_compare_antisym a b :
  lex_compare b a = CompOpp (lex_compare a b).
Proof.
  revert b; induction a as [|x a IH]; intros [|y b]; try reflexivity.
  cbn [lex_compare]; rewrite (Z.compare_antisym x y).
  destruct (x ?= y); simpl; auto.
Qed.

Lemma lex_compare_eq a b :
  length a = length b -> lex_compare a b = Eq -> a = b.
Proof.
  revert b; induction a as [|x a IH]; intros [|y b] Hl H; try discriminate.
  - reflexivity.
  - cbn [lex_compare] in H; destruct (Z.compare_spec x y); try discriminate.
    subst; f_equal; apply IH; [simpl in Hl; lia | exact H].
Qed.

Lemma lex_compare_trans a : forall b c,
  lex_compare a b = Lt -> lex_compare b c = Lt -> lex_compare a c = Lt.
Proof.
  induction a as [|x a IH]; intros [|y b] [|z c] H1 H2; try discriminate.
  cbn [lex_compare] in *.
  destruct (Z.compare_spec x y), (Z.compare_spec y z), (Z.compare_spec x z);
    try discriminate; try lia; try reflexivity.
  now apply (IH b c).
Qed.

(** X11. [GenericComparator] is a strict total order on the keys of one
    instantiation: irreflexive, asymmetric, transitive, and two keys that it
    does not order either way hold the same bytes. *)
Theorem GenericComparator_strict_total_order a b c :
  length (data a) = key_size_byte ->
  length (data b) = key_size_byte ->
  length (data c) = key_size_byte ->
  GenericComparator a a = false
  /\ (GenericComparator a b = true -> GenericComparator b a = false)
  /\ (GenericComparator a b = true -> GenericComparator b c = true ->
      GenericComparator a c = true)
  /\ (GenericComparator a b = false -> GenericComparator b a = false ->
      data a = data b).
Proof.
  intros La Lb Lc; unfold GenericComparator.
  assert (Hlt : forall p q, length (data p) = key_size_byte ->
                length (data q) = key_size_byte ->
                (LessThan p q = true <-> lex_compare (data p) (data q) = Lt)).
  { intros p q Lp Lq; now rewrite LessThan_compare, Compare_sign. }
  assert (Hnlt : forall p q, length (data p) = key_size_byte ->
                 length (data q) = key_size_byte ->
                 (LessThan p q = false <-> lex_compare (data p) (data q) <> Lt)).
  { intros p q Lp Lq; rewrite <- Hlt by assumption.
    destruct (LessThan p q); split; congruence. }
  repeat split.
  - apply Hnlt; auto; now rewrite lex_compare_refl.
  - rewrite Hlt, Hnlt by assumption; intros H.
    rewrite lex_compare_antisym, H; discriminate.
  - rewrite !Hlt by assumption; apply lex_compare_trans.
  - rewrite !Hnlt by assumption; intros H1 H2.
    apply lex_compare_eq; [lia|].
    rewrite lex_compare_antisym in H2.
    destruct (lex_compare (data a) (data b)); simpl in *; congruence.
Qed.

(** X12. [GenericEqualityChecker] holds exactly for keys with the same
    bytes, and it is the relation of keys that [GenericComparator] orders
    neither way. *)
Theorem GenericEqualityChecker_same_bytes a b :
  length (data a) = key_size_byte ->
  length (data b) = key_size_byte ->
  (GenericEqualityChecker a b = true <-> data a = data b)
  /\ GenericEqualityChecker a b
     = negb (GenericComparator a b) && negb (GenericComparator b a).
Proof.
  intros La Lb; unfold GenericEqualityChecker, GenericComparator.
  assert (He : Equals a b = true <-> data a = data b).
  { rewrite Equals_compare, Compare_sign by assumption; split.
    - apply lex_compare_eq; lia.
    - intros ->; apply lex_compare_refl. }
  split; [exact He|].
  pose proof (Compare_sign a b La Lb) as Hab.
  pose proof (Compare_sign b a Lb La) as Hba.
  rewrite lex_compare_antisym, <- Hab in Hba.
  unfold Equals, LessThan.
  destruct (Z.compare_spec (Compare a b) 0) as [E|E|E];
    destruct (Z.compare_spec (Compare b a) 0) as [E'|E'|E'];
    try discriminate Hba;
    destruct (Z.eqb_spec (Compare a b) 0), (Z.ltb_spec (Compare a b) 0),
      (Z.ltb_spec (Compare b a) 0); try lia; reflexivity.
Qed.

(** ** The size and the bytes of a key *)

Lemma write_keeps_well_formed offset src :
  Forall is_byte src -> keeps_well_formed (write offset src).
Proof.
  intros Hs k [L B].
  destruct (Nat.leb_spec (offset + length src) (length (data k))) as [Hin|Hout].
  - rewrite write_in_bounds by exact Hin; split; cbn [data].
    + now rewrite splice_length.
    + now apply splice_bytes.
  - now rewrite write_out_of_bounds.
Qed.

Lemma bind_keeps_well_formed {A B} (m : method A) (f : A -> method B) :
  keeps_well_formed m -> (forall a, keeps_well_formed (f a)) ->
  keeps_well_formed (bind m f).
Proof.
  intros Hm Hf k W; specialize (Hm k W); unfold bind.
  destruct (m k) as [a k'|e k'|]; [now apply Hf | exact Hm | exact I].
Qed.

Lemma ret_keeps_well_formed {A} (a : A) : keeps_well_formed (ret a).
Proof. intros k W; exact W. Qed.

Lemma load_keeps_well_formed ty offset : keeps_well_formed (load ty offset).
Proof.
  intros k W; unfold load.
  now destruct (offset + sizeof ty <=? length (data k))%nat.
Qed.

Lemma ZeroOut_keeps_well_formed : keeps_well_formed ZeroOut.
Proof.
  intros k [L _]; rewrite ZeroOut_spec by exact L; apply zero_key_well_formed.
Qed.

Lemma setFromString_loop_keeps_well_formed fuel : forall iss i,
  keeps_well_formed (setFromString_loop fuel iss i).
Proof.
  induction fuel as [|fuel IH]; intros iss i; cbn [setFromString_loop];
    [apply ret_keeps_well_formed|].
  destruct (getline iss comma) as [[temp iss']|]; [|apply ret_keeps_well_formed].
  apply bind_keeps_well_formed.
  - destruct (stoul temp); intros k W; exact W.
  - intros v; apply bind_keeps_well_formed.
    + rewrite AddUnsignedInteger_bytes.
      apply write_keeps_well_formed, to_be_bytes.
    + intros _; destruct (keySize <=? S i)%nat;
        [apply ret_keeps_well_formed | apply IH].
Qed.

(** X13. No member function changes the size of the array or stores
    anything but bytes in it: from a well-formed key, [ZeroOut], the four
    accessors, [setFromString] and the copy from a well-formed key leave a
    well-formed key, when they return and, for [setFromString], also when
    [stoul] throws. *)
Theorem member_functions_keep_well_formed :
  keeps_well_formed ZeroOut
  /\ (forall ty v offset, keeps_well_formed (AddInteger ty v offset))
  /\ (forall ty v offset, keeps_well_formed (AddUnsignedInteger ty v offset))
  /\ (forall ty offset, keeps_well_formed (GetInteger ty offset))
  /\ (forall ty offset, keeps_well_formed (GetUnsignedInteger ty offset))
  /\ (forall key, keeps_well_formed (setFromString key))
  /\ (forall other, well_formed other -> keeps_well_formed (GenericKey_copy other)).
Proof.
  split; [exact ZeroOut_keeps_well_formed|].
  split; [intros; rewrite AddInteger_bytes;
          apply write_keeps_well_formed, to_be_bytes|].
  split; [intros; rewrite AddUnsignedInteger_bytes;
          apply write_keeps_well_formed, to_be_bytes|].
  split; [intros; apply bind_keeps_well_formed;
          [apply load_keeps_well_formed | intros; apply ret_keeps_well_formed]|].
  split; [intros; apply bind_keeps_well_formed;
          [apply load_keeps_well_formed | intros; apply ret_keeps_well_formed]|].
  split.
  - intros key; unfold setFromString, setFromString_count.
    apply bind_keeps_well_formed; [|intros; apply ret_keeps_well_formed].
    apply bind_keeps_well_formed; [exact ZeroOut_keeps_well_formed|].
    intros _; apply setFromString_loop_keeps_well_formed.
  - intros other [Lo Bo] k W; unfold GenericKey_copy.
    destruct (key_size_byte <=? length (data other))%nat; [|exact I].
    apply write_keeps_well_formed; [|exact W].
    now apply (Forall_split _ key_size_byte) in Bo.
Qed.

(** X14. The copy constructor and the assignment operator, from a key of
    this instantiation, return with a key that holds the same bytes as the
    source, whatever the target held: it satisfies [Equals] and [==] with the
    source and both getters read from it what they read from the source. *)
Theorem copy_is_identical other k :
  well_formed other ->
  length (data k) = key_size_byte ->
  exists k',
    GenericKey_copy other k = Normal tt k'
    /\ op_assign other k = Normal tt k'
    /\ data k' = data other
    /\ Equals k' other = true
    /\ op_eq k' other = true
    /\ forall ty offset r,
        (GetInteger ty offset other = Normal r other ->
         GetInteger ty offset k' = Normal r k')
        /\ (GetUnsignedInteger ty offset other = Normal r other ->
            GetUnsignedInteger ty offset k' = Normal r k').
Proof.
  intros [Lo Bo] Lk; unfold op_assign, GenericKey_copy.
  rewrite (proj2 (Nat.leb_le _ _)) by lia.
  rewrite <- Lo, firstn_all.
  rewrite write_in_bounds by (cbn; lia).
  assert (E : splice (data k) 0 (data other) = data other).
  { unfold splice; cbn [firstn app Nat.add].
    rewrite skipn_all2 by lia; apply app_nil_r. }
  rewrite E; exists (mkKey (data other)).
  assert (Ec : memcmp (data other) (data other) key_size_byte = 0).
  { apply Z.compare_eq_iff.
    rewrite memcmp_sign by assumption; apply lex_compare_refl. }
  repeat (split; [reflexivity|]).
  split; [unfold Equals, Compare; cbn [data]; now rewrite Ec|].
  split; [unfold op_eq; cbn [data]; now rewrite Ec|].
  intros ty offset r; destruct other as [d]; cbn [data] in *; auto.
Qed.

(** ** setFromString: the array it leaves *)

Lemma splice_app P R e :
  (length e <= length R)%nat ->
  splice (P ++ R) (length P) e = P ++ e ++ skipn (length e) R.
Proof.
  intros H; unfold splice.
  rewrite firstn_app, Nat.sub_diag, firstn_all; cbn [firstn].
  rewrite app_nil_r, skipn_app.
  rewrite skipn_all2 by lia.
  now replace (length P + length e - length P)%nat with (length e) by lia.
Qed.

Lemma pack_slots_data vs : forall i k P m,
  data k = P ++ repeat 0 m -> length P = (i * 8)%nat ->
  (length vs * 8 <= m)%nat ->
  pack_slots vs i k
  = Normal tt (mkKey (P ++ concat (map (encode uint64_t) vs)
                        ++ repeat 0 (m - length vs * 8))).
Proof.
  induction vs as [|v vs IH]; intros i k P m Hd HP Hm.
  - cbn [pack_slots map concat length app]; unfold ret.
    rewrite Nat.sub_0_r, <- Hd; now destruct k.
  - cbn [length] in Hm; cbn [pack_slots].
    assert (E : AddUnsignedInteger uint64_t v (i * 8) k
                = Normal tt (mkKey ((P ++ encode uint64_t v) ++ repeat 0 (m - 8)))).
    { rewrite AddUnsignedInteger_spec by reflexivity.
      rewrite write_in_bounds
        by (rewrite Hd, length_app, repeat_length, encode_length; cbn; lia).
      rewrite Hd, <- HP, splice_app
        by (rewrite repeat_length, encode_length; cbn; lia).
      now rewrite encode_length, skipn_repeat, <- app_assoc. }
    rewrite (bind_Normal _ _ _ _ _ E).
    rewrite (IH (S i) _ (P ++ encode uint64_t v) (m - 8)%nat);
      [| reflexivity | rewrite length_app, encode_length; cbn; lia | lia].
    cbn [map concat length]; rewrite <- !app_assoc.
    now replace (m - 8 - length vs * 8)%nat with (m - S (length vs) * 8)%nat by lia.
Qed.

Lemma concat_encode_zeros n :
  concat (map (encode uint64_t) (repeat 0 n)) = repeat 0 (n * 8).
Proof.
  induction n as [|n IH]; [reflexivity|].
  cbn [repeat map concat]; rewrite IH; reflexivity.
Qed.

Lemma slot_values_split values :
  slot_values values
  = firstn keySize values
      ++ repeat 0 (keySize - length (firstn keySize values)).
Proof.
  unfold slot_values; rewrite firstn_app, length_firstn.
  f_equal; rewrite firstn_repeat by lia; f_equal; lia.
Qed.

Lemma slot_values_length values : length (slot_values values) = keySize.
Proof.
  unfold slot_values; rewrite length_firstn, length_app, repeat_length; lia.
Qed.

(** The array after packing the leading values into the zeroed key. *)
Lemma pack_slots_zero_key values :
  pack_slots (firstn keySize values) 0 (mkKey (repeat 0 key_size_byte))
  = Normal tt (mkKey (concat (map (encode uint64_t) (slot_values values)))).
Proof.
  assert (Hl : (length (firstn keySize values) <= keySize)%nat)
    by (rewrite length_firstn; lia).
  rewrite (pack_slots_data _ 0 _ [] key_size_byte);
    [| reflexivity | reflexivity | unfold key_size_byte; lia].
  rewrite slot_values_split, map_app, concat_app, concat_encode_zeros.
  cbn [app]; unfold key_size_byte.
  now rewrite Nat.mul_sub_distr_r.
Qed.

Lemma slice_concat_encode l : forall i,
  (i < length l)%nat ->
  slice (i * 8) 8 (concat (map (encode uint64_t) l)) = encode uint64_t (nth i l 0).
Proof.
  induction l as [|v l IH]; intros [|i] Hi; cbn [length] in Hi; try lia;
    cbn [map concat nth]; unfold slice.
  - cbn [Nat.mul skipn].
    pose proof (encode_length uint64_t v) as E; cbn [sizeof] in E.
    rewrite <- E, firstn_app, Nat.sub_diag, firstn_all; cbn [firstn].
    apply app_nil_r.
  - rewrite skipn_app, encode_length.
    rewrite skipn_all2 by (rewrite encode_length; cbn; lia).
    replace (S i * 8 - sizeof uint64_t)%nat with (i * 8)%nat by (cbn; lia).
    apply IH; lia.
Qed.

Lemma concat_encode_length l :
  length (concat (map (encode uint64_t) l)) = (length l * 8)%nat.
Proof.
  induction l as [|v l IH]; [reflexivity|].
  cbn [map concat length]; rewrite length_app, encode_length, IH; cbn; lia.
Qed.

Lemma concat_encode_bytes l : Forall is_byte (concat (map (encode uint64_t) l)).
Proof.
  induction l as [|v l IH]; cbn [map concat]; [constructor|].
  apply Forall_app; split; [apply encode_bytes | exact IH].
Qed.

Lemma lex_compare_concat_encode la : forall lb,
  length la = length lb ->
  Forall (representable uint64_t) la -> Forall (representable uint64_t) lb ->
  lex_compare (concat (map (encode uint64_t) la))
    (concat (map (encode uint64_t) lb))
  = tuple_compare la lb.
Proof.
  unfold tuple_compare.
  induction la as [|x la IH]; intros [|y lb] Hl Ha Hb; try discriminate;
    [reflexivity|].
  inversion Ha; inversion Hb; subst; cbn [map concat lex_compare].
  rewrite lex_compare_app by now rewrite !encode_length.
  rewrite lex_compare_encode by assumption.
  destruct (x ?= y); auto.
Qed.

Lemma decimal_values_representable toks :
  Forall decimal_token toks ->
  Forall (representable uint64_t) (map decimal_value toks).
Proof.
  induction 1 as [|t toks Ht _ IH]; cbn [map]; constructor; [|exact IH].
  apply decimal_value_range in Ht.
  unfold representable, ULONG_MAX in *; cbn [is_signed].
  change (2 ^ bit_width uint64_t) with (2 ^ 64); lia.
Qed.

Lemma slot_values_representable values :
  Forall (representable uint64_t) values ->
  Forall (representable uint64_t) (slot_values values).
Proof.
  intros H; unfold slot_values.
  apply (Forall_split _ keySize (values ++ repeat 0 keySize)).
  apply Forall_app; split; [exact H|].
  apply Forall_forall; intros z Hz; apply repeat_spec in Hz; subst.
  unfold representable; cbn; lia.
Qed.

Lemma setFromString_tokens_data key toks k :
  (0 < keySize)%nat ->
  list_ascii_of_string key = join toks ->
  Forall decimal_token toks ->
  well_formed k ->
  setFromString_count key k
  = Normal (Nat.min (length toks) keySize)
      (mkKey (concat (map (encode uint64_t)
                        (slot_values (map decimal_value toks))))).
Proof.
  intros Hk Hkey Ht W.
  rewrite setFromString_count_unfold, Hkey by exact W.
  rewrite setFromString_loop_tokens by (auto using zero_key_well_formed; lia).
  rewrite Nat.sub_0_r.
  now rewrite (bind_Normal _ _ _ _ _ (pack_slots_zero_key _)).
Qed.

(** X15. Keys filled by [setFromString] from texts of decimal tokens
    compare as the tuples of numbers the texts stand for, slot by slot, a
    text with fewer tokens than slots counting as zero in the slots it
    leaves. *)
Theorem text_keys_compare_numerically keyA keyB toksA toksB kA kB :
  (0 < keySize)%nat ->
  list_ascii_of_string keyA = join toksA ->
  list_ascii_of_string keyB = join toksB ->
  Forall decimal_token toksA -> Forall decimal_token toksB ->
  well_formed kA -> well_formed kB ->
  exists ka kb,
    setFromString keyA kA = Normal tt ka
    /\ setFromString keyB kB = Normal tt kb
    /\ (Compare ka kb ?= 0)
       = tuple_compare (slot_values (map decimal_value toksA))
           (slot_values (map decimal_value toksB)).
Proof.
  intros Hk HA HB TA TB WA WB.
  pose proof (setFromString_tokens_data keyA toksA kA Hk HA TA WA) as EA.
  pose proof (setFromString_tokens_data keyB toksB kB Hk HB TB WB) as EB.
  eexists; eexists.
  split; [unfold setFromString; now rewrite (bind_Normal _ _ _ _ _ EA)|].
  split; [unfold setFromString; now rewrite (bind_Normal _ _ _ _ _ EB)|].
  rewrite Compare_sign;
    cbn [data]; unfold key_size_byte;
    rewrite ?concat_encode_length, ?slot_values_length; try reflexivity.
  apply lex_compare_concat_encode.
  - now rewrite !slot_values_length.
  - now apply slot_values_representable, decimal_values_representable.
  - now apply slot_values_representable, decimal_values_representable.
Qed.

(** ** setFromString: malformed input and input beyond the capacity *)

Lemma read_until_comma_free t :
  comma_free t ->
  read_until comma t = (t, [])
  /\ forall r, read_until comma (t ++ comma :: r) = (t, r).
Proof.
  unfold comma_free; induction t as [|c t IH]; intros H.
  - split; [reflexivity|intros r; reflexivity].
  - cbn [forallb] in H; apply andb_true_iff in H; destruct H as [Hc Ht].
    destruct (IH Ht) as [E1 E2].
    apply negb_true_iff in Hc.
    cbn [read_until app]; rewrite Hc.
    split; [now rewrite E1 | intros r; now rewrite E2].
Qed.

Lemma getline_join_comma_free t toks :
  comma_free t -> t <> [] \/ toks <> [] ->
  getline (join (t :: toks)) comma = Some (t, join toks).
Proof.
  intros Hc Hne; destruct (read_until_comma_free t Hc) as [E1 E2].
  destruct toks as [|t' toks].
  - destruct Hne as [Hne|Hne]; [|contradiction].
    destruct t as [|c t]; [contradiction|].
    cbn [join]; unfold getline; now rewrite E1.
  - change (join (t :: t' :: toks)) with (t ++ comma :: join (t' :: toks)).
    destruct t as [|c t].
    + reflexivity.
    + change (getline ((c :: t) ++ comma :: join (t' :: toks)) comma)
        with (Some (read_until comma ((c :: t) ++ comma :: join (t' :: toks)))).
      now rewrite E2.
Qed.

Lemma setFromString_loop_malformed toks bad rest e : forall fuel i k,
  Forall decimal_token toks ->
  comma_free bad -> bad <> [] \/ rest <> [] ->
  stoul bad = Throw e ->
  (length (join (toks ++ bad :: rest)) < fuel)%nat ->
  (i + length toks < keySize)%nat -> well_formed k ->
  setFromString_loop fuel (join (toks ++ bad :: rest)) i k
  = (pack_slots (map decimal_value toks) i ;;; throw e) k.
Proof.
  induction toks as [|t toks IH]; intros fuel i k Ht Hc Hne Hs Hf Hi W;
    (destruct fuel as [|fuel]; [lia|]); cbn [app] in *.
  - cbn [setFromString_loop]; rewrite getline_join_comma_free by assumption.
    now rewrite Hs.
  - inversion Ht as [|? ? Hd Hts]; subst; cbn [length] in Hi.
    cbn [setFromString_loop]; rewrite getline_join by exact Hd.
    rewrite stoul_decimal by exact Hd; cbn [lift].
    pose proof (join_length t (toks ++ bad :: rest) Hd) as Hlen.
    destruct (AddUnsignedInteger_slot (decimal_value t) i k W) as [E W1]; [lia|].
    rewrite bind_ret, static_cast_ulong by now apply decimal_value_range.
    rewrite (bind_Normal _ _ _ _ _ E).
    cbn [map pack_slots]; rewrite bind_assoc, (bind_Normal _ _ _ _ _ E).
    destruct (Nat.leb_spec keySize (S i)); [lia|].
    apply IH; auto; lia.
Qed.

(** X16. A token that [stoul] rejects, met before the slots are used up,
    makes [setFromString] throw what [stoul] throws; the key is then not
    restored: it holds the tokens before the rejected one in the leading
    slots and zero in all others. *)
Theorem setFromString_rejected_token key toks bad rest e k :
  list_ascii_of_string key = join (toks ++ bad :: rest) ->
  Forall decimal_token toks ->
  comma_free bad -> bad <> [] \/ rest <> [] ->
  stoul bad = Throw e ->
  (length toks < keySize)%nat ->
  well_formed k ->
  exists k',
    setFromString key k = Raised e k'
    /\ forall i, (i < keySize)%nat ->
         GetUnsignedInteger uint64_t (i * 8) k'
         = Normal (nth i (map decimal_value toks) 0) k'.
Proof.
  intros Hkey Ht Hc Hne Hs Hn W.
  assert (Hp := pack_slots_zero_key (map decimal_value toks)).
  rewrite firstn_all2 in Hp by (rewrite length_map; lia).
  assert (E : setFromString_count key k
              = Raised e (mkKey (concat (map (encode uint64_t)
                                   (slot_values (map decimal_value toks)))))).
  { rewrite setFromString_count_unfold, Hkey by exact W.
    rewrite (setFromString_loop_malformed toks bad rest e)
      by (auto using zero_key_well_formed; lia).
    now rewrite (bind_Normal _ _ _ _ _ Hp). }
  eexists; split; [unfold setFromString, bind; now rewrite E|].
  intros i Hi.
  rewrite GetUnsignedInteger_spec;
    [| reflexivity | apply concat_encode_bytes
     | cbn [data sizeof]; rewrite concat_encode_length, slot_values_length; lia].
  cbn [data sizeof]; rewrite slice_concat_encode
    by (rewrite slot_values_length; exact Hi).
  rewrite decode_encode.
  - unfold slot_values; rewrite nth_firstn.
    destruct (Nat.ltb_spec i keySize); [|lia].
    destruct (Nat.lt_ge_cases i (length (map decimal_value toks))) as [Hlt|Hge].
    + now rewrite app_nth1.
    + rewrite app_nth2, nth_repeat, nth_overflow by lia; reflexivity.
  - pose proof (slot_values_representable _
                  (decimal_values_representable toks Ht)) as Hr.
    apply (proj1 (Forall_forall _ _) Hr), nth_In.
    now rewrite slot_values_length.
Qed.

Lemma setFromString_loop_capacity toks junk : forall fuel i k,
  toks <> [] -> Forall decimal_token toks ->
  (length (join toks ++ comma :: junk) < fuel)%nat ->
  (i + length toks)%nat = keySize -> well_formed k ->
  setFromString_loop fuel (join toks ++ comma :: junk) i k
  = (pack_slots (map decimal_value toks) i ;;; ret keySize) k.
Proof.
  induction toks as [|t toks IH]; intros fuel i k Hne Ht Hf Hi W;
    [contradiction|].
  destruct fuel as [|fuel]; [lia|].
  inversion Ht as [|? ? Hd Hts]; subst; cbn [length] in Hi.
  assert (Hg : getline (join (t :: toks) ++ comma :: junk) comma
               = Some (t, match toks with
                          | [] => junk
                          | _ => join toks ++ comma :: junk
                          end)
               /\ (length match toks with
                          | [] => junk
                          | _ => join toks ++ comma :: junk
                          end
                   < length (join (t :: toks) ++ comma :: junk))%nat).
  { destruct Hd as (Hn & Hdig & _).
    destruct (read_until_token t Hdig) as [_ E2].
    destruct t as [|c t]; [contradiction|].
    destruct toks as [|t' toks].
    - cbn [join]; split; [|rewrite length_app; cbn [length]; lia].
      change (getline ((c :: t) ++ comma :: junk) comma)
        with (Some (read_until comma ((c :: t) ++ comma :: junk))).
      now rewrite E2.
    - change (join ((c :: t) :: t' :: toks))
        with ((c :: t) ++ comma :: join (t' :: toks)).
      rewrite <- app_assoc; cbn [app].
      split; [|cbn [length]; rewrite (length_app t); cbn [length]; lia].
      change (getline (c :: t ++ comma :: join (t' :: toks) ++ comma :: junk) comma)
        with (Some (read_until comma
                      ((c :: t) ++ comma :: join (t' :: toks) ++ comma :: junk))).
      now rewrite E2. }
  destruct Hg as [Hg Hlen].
  cbn [setFromString_loop]; rewrite Hg.
  rewrite stoul_decimal by exact Hd; cbn [lift].
  destruct (AddUnsignedInteger_slot (decimal_value t) i k W) as [E W1]; [lia|].
  rewrite bind_ret, static_cast_ulong by now apply decimal_value_range.
  rewrite (bind_Normal _ _ _ _ _ E).
  cbn [map pack_slots]; rewrite bind_assoc, (bind_Normal _ _ _ _ _ E).
  destruct toks as [|t' toks].
  - cbn [length] in Hi.
    destruct (Nat.leb_spec keySize (S i)); [|lia].
    cbn [map pack_slots]; unfold bind, ret; f_equal; lia.
  - destruct (Nat.leb_spec keySize (S i)); [cbn [length] in Hi; lia|].
    apply IH; auto; [discriminate | lia | cbn [length] in *; lia].
Qed.

(** X17. Once every slot is filled [setFromString] returns without reading
    on: a text of [keySize] decimal tokens followed by a comma and anything
    at all, numbers or not, gives the key that the [keySize] tokens alone
    give. *)
Theorem setFromString_ignores_rest key key0 toks junk k :
  list_ascii_of_string key = join toks ++ comma :: junk ->
  list_ascii_of_string key0 = join toks ->
  Forall decimal_token toks ->
  length toks = keySize -> (0 < keySize)%nat ->
  well_formed k ->
  exists k',
    setFromString key k = Normal tt k'
    /\ setFromString key0 k = Normal tt k'
    /\ setFromString_count key k = Normal keySize k'.
Proof.
  intros Hkey Hkey0 Ht Hl Hk W.
  assert (Hp := pack_slots_zero_key (map decimal_value toks)).
  rewrite firstn_all2 in Hp by (rewrite length_map; lia).
  assert (E : setFromString_count key k
              = Normal keySize
                  (mkKey (concat (map (encode uint64_t)
                            (slot_values (map decimal_value toks)))))).
  { rewrite setFromString_count_unfold, Hkey by exact W.
    rewrite setFromString_loop_capacity;
      [ now rewrite (bind_Normal _ _ _ _ _ Hp)
      | destruct toks; [cbn in Hl; lia | discriminate]
      | exact Ht | lia | lia | apply zero_key_well_formed ]. }
  pose proof (setFromString_tokens_data key0 toks k Hk Hkey0 Ht W) as E0.
  eexists; split; [unfold setFromString; now rewrite (bind_Normal _ _ _ _ _ E)|].
  split; [unfold setFromString; now rewrite (bind_Normal _ _ _ _ _ E0)|].
  exact E.
Qed.

(** ** The fresh key in the order *)

Lemma lex_compare_zeros d :
  Forall is_byte d -> lex_compare (repeat 0 (length d)) d <> Gt.
Proof.
  induction 1 as [|b d Hb _ IH]; cbn [length repeat lex_compare];
    [discriminate|].
  unfold is_byte in Hb; destruct (Z.compare_spec 0 b); [exact IH|discriminate|lia].
Qed.

(** X18. A freshly constructed key is a least key: no key of the
    instantiation is ordered before it by [GenericComparator], and a key
    that is not ordered after it is all zero too. *)
Theorem fresh_key_is_least storage k :
  well_formed storage -> well_formed k ->
  exists fresh,
    GenericKey_ctor storage = Normal tt fresh
    /\ GenericComparator k fresh = false
    /\ (GenericComparator fresh k = false -> data k = data fresh).
Proof.
  intros [Ls _] [Lk Bk]; unfold GenericKey_ctor.
  rewrite ZeroOut_spec by exact Ls.
  eexists; split; [reflexivity|].
  pose proof (lex_compare_zeros (data k) Bk) as Hz; rewrite Lk in Hz.
  assert (Hc : (Compare (mkKey (repeat 0 key_size_byte)) k ?= 0)
               = lex_compare (repeat 0 key_size_byte) (data k))
    by (apply Compare_sign; [apply repeat_length | exact Lk]).
  assert (Hc' : (Compare k (mkKey (repeat 0 key_size_byte)) ?= 0)
                = CompOpp (lex_compare (repeat 0 key_size_byte) (data k))).
  { rewrite Compare_sign by (cbn [data]; auto using repeat_length).
    cbn [data]; apply lex_compare_antisym. }
  unfold GenericComparator; split.
  - destruct (LessThan k (mkKey (repeat 0 key_size_byte))) eqn:E; [|reflexivity].
    apply LessThan_compare in E; rewrite Hc' in E.
    destruct (lex_compare (repeat 0 key_size_byte) (data k)); simpl in E;
      congruence.
  - intros Hnlt; cbn [data]; symmetry.
    apply lex_compare_eq; [rewrite repeat_length; lia|].
    destruct (lex_compare (repeat 0 key_size_byte) (data k)) eqn:El;
      [reflexivity | | congruence].
    apply LessThan_compare in Hc; congruence.
Qed.

End GenericKey.

(** * The two byte orders *)

Lemma setFromString_loop_host h1 h2 keySize fuel : forall iss i k,
  setFromString_loop h1 keySize fuel iss i k
  = setFromString_loop h2 keySize fuel iss i k.
Proof.
  induction fuel as [|fuel IH]; intros iss i k; [reflexivity|].
  cbn [setFromString_loop].
  destruct (getline iss comma) as [[temp iss']|]; [|reflexivity].
  unfold bind; destruct (lift (stoul temp) k) as [v k1|e k1|]; try reflexivity.
  rewrite (AddUnsignedInteger_bytes h1), (AddUnsignedInteger_bytes h2).
  destruct (write (i * 8) (to_be (sizeof uint64_t) (static_cast uint64_t v)) k1)
    as [[] k2|e k2|]; try reflexivity.
  destruct (keySize <=? S i)%nat; [reflexivity|apply IH].
Qed.

(** X19. The byte order of the host is not observable: on a little-endian
    and on a big-endian host the two pack functions leave the same array,
    the two getters read the same value from an array of bytes, and
    [setFromString] has the same outcome. *)
Theorem host_byte_order_not_observable h1 h2 :
  (forall ty v offset k,
      AddInteger h1 ty v offset k = AddInteger h2 ty v offset k
      /\ AddUnsignedInteger h1 ty v offset k = AddUnsignedInteger h2 ty v offset k)
  /\ (forall ty offset k,
         Forall is_byte (data k) ->
         GetInteger h1 ty offset k = GetInteger h2 ty offset k
         /\ GetUnsignedInteger h1 ty offset k = GetUnsignedInteger h2 ty offset k)
  /\ (forall keySize key k,
         setFromString h1 keySize key k = setFromString h2 keySize key k).
Proof.
  split; [|split].
  - intros ty v offset k.
    now rewrite !AddInteger_bytes, !AddUnsignedInteger_bytes.
  - intros ty offset k Hb.
    destruct (Nat.leb_spec (offset + sizeof ty) (length (data k))) as [Hin|Hout].
    + now rewrite !GetInteger_bytes, !GetUnsignedInteger_bytes.
    + apply Nat.leb_gt in Hout.
      unfold GetInteger, GetUnsignedInteger, bind, load; now rewrite Hout.
  - intros keySize key k.
    unfold setFromString, setFromString_count, bind, ZeroOut.
    now rewrite (setFromString_loop_host h1 h2).
Qed.

(** * Instances

    The general results applied to concrete keys: a one-slot key on a
    little-endian host, a three-slot key on a big-endian one. *)

Ltac bytes_ok :=
  repeat (apply Forall_cons; [unfold is_byte; lia|]); apply Forall_nil.

Ltac key_ok := split; [reflexivity | cbn [data repeat]; bytes_ok].

Ltac value_ok := unfold representable; cbn; lia.

Ltac token_ok :=
  split; [discriminate | split; [reflexivity | vm_compute; discriminate]].

(** Signed 32-bit -5 and 3 at offset 0. *)
Lemma AddInteger_preserves_order_witness :
  exists ka kb,
    AddInteger LittleEndian int32_t (-5) 0 (mkKey (repeat 0 8)) = Normal tt ka
    /\ AddInteger LittleEndian int32_t 3 0 (mkKey (repeat 0 8)) = Normal tt kb
    /\ (-5 < 3 <-> Compare 1 ka kb < 0).
Proof.
  apply (AddInteger_preserves_order LittleEndian 1 int32_t (-5) 3 0
           (mkKey (repeat 0 8)) (mkKey (repeat 0 8)));
    [reflexivity | value_ok | value_ok | key_ok | key_ok
    | cbn; lia | repeat split].
Defined.

(** The least 64-bit value at an unaligned offset of a three-slot key. *)
Lemma pack_unpack_round_trip_witness :
  exists k',
    AddInteger BigEndian int64_t (- 2 ^ 63) 3 (mkKey (repeat 255 24)) = Normal tt k'
    /\ GetInteger BigEndian int64_t 3 k' = Normal (- 2 ^ 63) k'.
Proof.
  apply (pack_unpack_round_trip BigEndian 3 int64_t (- 2 ^ 63) 3
           (mkKey (repeat 255 24)));
    [value_ok | key_ok | cbn; lia | reflexivity].
Defined.

(** Four fields of mixed width and signedness filling one slot; the tuples
    differ first in the third field, -1 against 0. *)
Lemma composite_key_order_witness :
  exists ka kb,
    pack_fields LittleEndian
      [(int32_t, 0%nat); (uint16_t, 4%nat); (int8_t, 6%nat); (uint8_t, 7%nat)]
      [-5; 7; -1; 200] (mkKey (repeat 0 8)) = Normal tt ka
    /\ pack_fields LittleEndian
         [(int32_t, 0%nat); (uint16_t, 4%nat); (int8_t, 6%nat); (uint8_t, 7%nat)]
         [-5; 7; 0; 3] (mkKey (repeat 9 8)) = Normal tt kb
    /\ (Compare 1 ka kb ?= 0) = Lt.
Proof.
  apply (composite_key_order LittleEndian 1
           [(int32_t, 0%nat); (uint16_t, 4%nat); (int8_t, 6%nat); (uint8_t, 7%nat)]
           [-5; 7; -1; 200] [-5; 7; 0; 3]
           (mkKey (repeat 0 8)) (mkKey (repeat 9 8)));
    [ cbn; repeat split
    | repeat (apply Forall2_cons; [value_ok|]); apply Forall2_nil
    | repeat (apply Forall2_cons; [value_ok|]); apply Forall2_nil
    | key_ok | key_ok ].
Defined.

Lemma fresh_key_zero_witness :
  exists k1 k2,
    GenericKey_ctor 1 (mkKey [1; 2; 3; 4; 5; 6; 7; 8]) = Normal tt k1
    /\ GenericKey_ctor 1 (mkKey [255; 254; 253; 252; 251; 250; 249; 248]) = Normal tt k2
    /\ data k1 = repeat 0 8
    /\ Equals 1 k1 k2 = true
    /\ op_eq 1 k1 k2 = true
    /\ forall ty offset,
        (offset + sizeof ty <= 8)%nat ->
        GetUnsignedInteger LittleEndian ty offset k1 = Normal 0 k1
        /\ GetInteger LittleEndian ty offset k1 = Normal (SignFlip ty 0) k1
        /\ (is_signed ty = true -> SignFlip ty 0 = min_value ty).
Proof.
  apply (fresh_key_zero LittleEndian 1
           (mkKey [1; 2; 3; 4; 5; 6; 7; 8])
           (mkKey [255; 254; 253; 252; 251; 250; 249; 248]));
    key_ok.
Defined.

Lemma hash_respects_Equals_witness :
  GenericHasher (mkKey [0; 0; 0; 0; 0; 0; 0; 42])
  = GenericHasher (mkKey [0; 0; 0; 0; 0; 0; 0; 42]).
Proof.
  apply (hash_respects_Equals 1
           (mkKey [0; 0; 0; 0; 0; 0; 0; 42]) (mkKey [0; 0; 0; 0; 0; 0; 0; 42]));
    reflexivity.
Defined.

(** "1,2,3" into a three-slot key that held other bytes. *)
Lemma setFromString_packs_tokens_witness :
  exists k',
    setFromString BigEndian 3 "1,2,3" (mkKey (repeat 7 24)) = Normal tt k'
    /\ setFromString_count BigEndian 3 "1,2,3" (mkKey (repeat 7 24)) = Normal 3%nat k'
    /\ pack_slots BigEndian [1; 2; 3] 0 (mkKey (repeat 0 24)) = Normal tt k'
    /\ forall i, (i < 3)%nat ->
         GetUnsignedInteger BigEndian uint64_t (i * 8) k'
         = Normal (decimal_value (nth i [["1"]; ["2"]; ["3"]]%char [])) k'.
Proof.
  apply (setFromString_packs_tokens BigEndian 3 "1,2,3"
           [["1"]; ["2"]; ["3"]]%char (mkKey (repeat 7 24)));
    [ lia | reflexivity
    | repeat (apply Forall_cons; [token_ok|]); apply Forall_nil
    | key_ok ].
Defined.

Lemma pack_frame_unpack_read_only_witness :
  (exists k', AddInteger LittleEndian int16_t (-2) 3 (mkKey (repeat 9 8)) = Normal tt k'
              /\ same_outside 3 2 (data k') (repeat 9 8))
  /\ (exists k', AddUnsignedInteger LittleEndian int16_t (-2) 3 (mkKey (repeat 9 8))
                 = Normal tt k'
                 /\ same_outside 3 2 (data k') (repeat 9 8))
  /\ (exists r, GetInteger LittleEndian int16_t 3 (mkKey (repeat 9 8))
                = Normal r (mkKey (repeat 9 8)))
  /\ (exists r, GetUnsignedInteger LittleEndian int16_t 3 (mkKey (repeat 9 8))
                = Normal r (mkKey (repeat 9 8))).
Proof.
  apply (pack_frame_unpack_read_only LittleEndian 1 int16_t (-2) 3
           (mkKey (repeat 9 8)));
    [key_ok | cbn; lia].
Defined.

(** Two tokens into three-slot keys of different prior content. *)
Lemma setFromString_erases_prior_content_witness :
  setFromString LittleEndian 3 "10,20" (mkKey (repeat 7 24))
  = setFromString LittleEndian 3 "10,20" (mkKey (repeat 200 24))
  /\ setFromString_count LittleEndian 3 "10,20" (mkKey (repeat 7 24))
     = setFromString_count LittleEndian 3 "10,20" (mkKey (repeat 200 24))
  /\ ((0 < 3)%nat ->
      setFromString LittleEndian 3 "10,20" (mkKey (repeat 7 24)) <> Undefined)
  /\ forall n k',
      setFromString_count LittleEndian 3 "10,20" (mkKey (repeat 7 24)) = Normal n k' ->
      forall i, (n <= i < 3)%nat ->
                GetUnsignedInteger LittleEndian uint64_t (i * 8) k' = Normal 0 k'.
Proof.
  apply (setFromString_erases_prior_content LittleEndian 3 "10,20"
           (mkKey (repeat 7 24)) (mkKey (repeat 200 24)));
    key_ok.
Defined.

(** ** Instances of the further properties *)

Lemma SignFlip_involutive_witness :
  SignFlip int16_t (SignFlip int16_t (-300)) = -300
  /\ Z.abs (SignFlip int16_t (-300) - -300) = 2 ^ (bit_width int16_t - 1).
Proof. apply (SignFlip_involutive int16_t (-300)); value_ok. Defined.

Lemma ToHostEndian_ToBigEndian_witness :
  static_cast int32_t
    (ToHostEndian LittleEndian (make_unsigned int32_t)
       (ToBigEndian LittleEndian int32_t (-5))) = -5.
Proof. apply (ToHostEndian_ToBigEndian LittleEndian int32_t (-5)); value_ok. Defined.

(** [AddInteger] and [GetInteger] instantiated with an unsigned type. *)
Lemma round_trip_any_type_witness :
  exists k',
    AddInteger LittleEndian uint16_t 40000 2 (mkKey (repeat 0 8)) = Normal tt k'
    /\ GetInteger LittleEndian uint16_t 2 k' = Normal 40000 k'.
Proof.
  apply (round_trip_any_type LittleEndian 1 uint16_t 40000 2 (mkKey (repeat 0 8)));
    [value_ok | key_ok | cbn; lia].
Defined.

Lemma getter_of_other_family_witness :
  exists k',
    AddInteger BigEndian int8_t (-1) 7 (mkKey (repeat 0 8)) = Normal tt k'
    /\ GetUnsignedInteger BigEndian int8_t 7 k' = Normal (SignFlip int8_t (-1)) k'.
Proof.
  apply (getter_of_other_family BigEndian 1 int8_t (-1) 7 (mkKey (repeat 0 8)));
    [value_ok | key_ok | cbn; lia].
Defined.

Lemma packed_field_is_big_endian_witness :
  exists k',
    AddUnsignedInteger LittleEndian uint32_t 258 0 (mkKey (repeat 9 8)) = Normal tt k'
    /\ forall i, (i < sizeof uint32_t)%nat ->
         nth_error (data k') (0 + i)
         = Some ((258 / 256 ^ Z.of_nat (sizeof uint32_t - 1 - i)) mod 256).
Proof.
  apply (packed_field_is_big_endian LittleEndian 1 uint32_t 258 0
           (mkKey (repeat 9 8)));
    [value_ok | key_ok | cbn; lia].
Defined.

Lemma disjoint_packs_commute_witness :
  (AddInteger LittleEndian int16_t (-2) 0 ;;;
   AddInteger LittleEndian int32_t 7 4) (mkKey (repeat 9 8))
  = (AddInteger LittleEndian int32_t 7 4 ;;;
     AddInteger LittleEndian int16_t (-2) 0) (mkKey (repeat 9 8))
  /\ (AddInteger LittleEndian int16_t (-2) 0 ;;;
      AddInteger LittleEndian int32_t 7 4) (mkKey (repeat 9 8)) <> Undefined.
Proof.
  apply (disjoint_packs_commute LittleEndian 1 int16_t (-2) 0 int32_t 7 4
           (mkKey (repeat 9 8)));
    [key_ok | cbn; lia | cbn; lia].
Defined.

Lemma disjoint_field_unchanged_witness :
  exists r u,
    GetInteger BigEndian int16_t 6 (mkKey [1; 2; 3; 4; 5; 6; 7; 8])
    = Normal r (mkKey [1; 2; 3; 4; 5; 6; 7; 8])
    /\ GetUnsignedInteger BigEndian int16_t 6 (mkKey [1; 2; 3; 4; 5; 6; 7; 8])
       = Normal u (mkKey [1; 2; 3; 4; 5; 6; 7; 8])
    /\ (exists k', AddInteger BigEndian int32_t (-9) 0
                     (mkKey [1; 2; 3; 4; 5; 6; 7; 8]) = Normal tt k'
                   /\ GetInteger BigEndian int16_t 6 k' = Normal r k'
                   /\ GetUnsignedInteger BigEndian int16_t 6 k' = Normal u k')
    /\ (exists k', AddUnsignedInteger BigEndian int32_t (-9) 0
                     (mkKey [1; 2; 3; 4; 5; 6; 7; 8]) = Normal tt k'
                   /\ GetInteger BigEndian int16_t 6 k' = Normal r k'
                   /\ GetUnsignedInteger BigEndian int16_t 6 k' = Normal u k').
Proof.
  apply (disjoint_field_unchanged BigEndian 1 int32_t (-9) 0 int16_t 6
           (mkKey [1; 2; 3; 4; 5; 6; 7; 8]));
    [key_ok | cbn; lia | cbn; lia | left; cbn; lia].
Defined.

Lemma packed_field_three_way_witness :
  exists ka kb,
    AddUnsignedInteger LittleEndian uint64_t 200 8 (mkKey (repeat 0 16)) = Normal tt ka
    /\ AddUnsignedInteger LittleEndian uint64_t 100 8 (mkKey (repeat 0 16)) = Normal tt kb
    /\ (Compare 2 ka kb ?= 0) = (200 ?= 100)
    /\ (Equals 2 ka kb = true <-> 200 = 100).
Proof.
  apply (packed_field_three_way LittleEndian 2 uint64_t 200 100 8
           (mkKey (repeat 0 16)) (mkKey (repeat 0 16)));
    [value_ok | value_ok | key_ok | key_ok | cbn; lia | repeat split | reflexivity].
Defined.

Lemma unsigned_pack_reverses_sign_witness :
  exists ka kb,
    AddUnsignedInteger LittleEndian int8_t (-1) 0 (mkKey (repeat 0 8)) = Normal tt ka
    /\ AddUnsignedInteger LittleEndian int8_t 0 0 (mkKey (repeat 0 8)) = Normal tt kb
    /\ Compare 1 ka kb > 0.
Proof.
  apply (unsigned_pack_reverses_sign LittleEndian 1 int8_t (-1) 0 0
           (mkKey (repeat 0 8)) (mkKey (repeat 0 8)));
    [reflexivity | value_ok | value_ok | lia | key_ok | key_ok
    | cbn; lia | repeat split].
Defined.

Lemma GenericComparator_strict_total_order_witness :
  GenericComparator 1 (mkKey [0; 0; 0; 0; 0; 0; 0; 1]) (mkKey [0; 0; 0; 0; 0; 0; 0; 1])
  = false
  /\ (GenericComparator 1 (mkKey [0; 0; 0; 0; 0; 0; 0; 1])
        (mkKey [0; 0; 0; 0; 0; 0; 1; 0]) = true ->
      GenericComparator 1 (mkKey [0; 0; 0; 0; 0; 0; 1; 0])
        (mkKey [0; 0; 0; 0; 0; 0; 0; 1]) = false)
  /\ (GenericComparator 1 (mkKey [0; 0; 0; 0; 0; 0; 0; 1])
        (mkKey [0; 0; 0; 0; 0; 0; 1; 0]) = true ->
      GenericComparator 1 (mkKey [0; 0; 0; 0; 0; 0; 1; 0])
        (mkKey [1; 0; 0; 0; 0; 0; 0; 0]) = true ->
      GenericComparator 1 (mkKey [0; 0; 0; 0; 0; 0; 0; 1])
        (mkKey [1; 0; 0; 0; 0; 0; 0; 0]) = true)
  /\ (GenericComparator 1 (mkKey [0; 0; 0; 0; 0; 0; 0; 1])
        (mkKey [0; 0; 0; 0; 0; 0; 1; 0]) = false ->
      GenericComparator 1 (mkKey [0; 0; 0; 0; 0; 0; 1; 0])
        (mkKey [0; 0; 0; 0; 0; 0; 0; 1]) = false ->
      data (mkKey [0; 0; 0; 0; 0; 0; 0; 1]) = data (mkKey [0; 0; 0; 0; 0; 0; 1; 0])).
Proof.
  apply (GenericComparator_strict_total_order 1
           (mkKey [0; 0; 0; 0; 0; 0; 0; 1]) (mkKey [0; 0; 0; 0; 0; 0; 1; 0])
           (mkKey [1; 0; 0; 0; 0; 0; 0; 0]));
    reflexivity.
Defined.

Lemma GenericEqualityChecker_same_bytes_witness :
  (GenericEqualityChecker 1 (mkKey [0; 0; 0; 0; 0; 0; 0; 1])
     (mkKey [0; 0; 0; 0; 0; 0; 1; 0]) = true
   <-> data (mkKey [0; 0; 0; 0; 0; 0; 0; 1]) = data (mkKey [0; 0; 0; 0; 0; 0; 1; 0]))
  /\ GenericEqualityChecker 1 (mkKey [0; 0; 0; 0; 0; 0; 0; 1])
       (mkKey [0; 0; 0; 0; 0; 0; 1; 0])
     = negb (GenericComparator 1 (mkKey [0; 0; 0; 0; 0; 0; 0; 1])
               (mkKey [0; 0; 0; 0; 0; 0; 1; 0]))
       && negb (GenericComparator 1 (mkKey [0; 0; 0; 0; 0; 0; 1; 0])
                  (mkKey [0; 0; 0; 0; 0; 0; 0; 1])).
Proof.
  apply (GenericEqualityChecker_same_bytes 1
           (mkKey [0; 0; 0; 0; 0; 0; 0; 1]) (mkKey [0; 0; 0; 0; 0; 0; 1; 0]));
    reflexivity.
Defined.

Lemma copy_is_identical_witness :
  exists k',
    GenericKey_copy 1 (mkKey [1; 2; 3; 4; 5; 6; 7; 8]) (mkKey (repeat 200 8))
    = Normal tt k'
    /\ data k' = [1; 2; 3; 4; 5; 6; 7; 8].
Proof.
  destruct (copy_is_identical LittleEndian 1
              (mkKey [1; 2; 3; 4; 5; 6; 7; 8]) (mkKey (repeat 200 8)))
    as (k' & E & _ & D & _); [key_ok | reflexivity |].
  exists k'; split; [exact E | exact D].
Defined.

(** "1,2" against "1,10" in two slots, and "3" against "3,0". *)
Lemma text_keys_compare_numerically_witness :
  exists ka kb,
    setFromString LittleEndian 2 "1,2" (mkKey (repeat 7 16)) = Normal tt ka
    /\ setFromString LittleEndian 2 "1,10" (mkKey (repeat 8 16)) = Normal tt kb
    /\ (Compare 2 ka kb ?= 0) = tuple_compare [1; 2] [1; 10].
Proof.
  apply (text_keys_compare_numerically LittleEndian 2 "1,2" "1,10"
           [["1"]; ["2"]]%char [["1"]; ["1"; "0"]]%char
           (mkKey (repeat 7 16)) (mkKey (repeat 8 16)));
    [ lia | reflexivity | reflexivity
    | repeat (apply Forall_cons; [token_ok|]); apply Forall_nil
    | repeat (apply Forall_cons; [token_ok|]); apply Forall_nil
    | key_ok | key_ok ].
Defined.

(** "5,x,7": the second token is not a number. *)
Lemma setFromString_rejected_token_witness :
  exists k',
    setFromString BigEndian 3 "5,x,7" (mkKey (repeat 7 24))
    = Raised invalid_argument k'
    /\ forall i, (i < 3)%nat ->
         GetUnsignedInteger BigEndian uint64_t (i * 8) k'
         = Normal (nth i [5] 0) k'.
Proof.
  apply (setFromString_rejected_token BigEndian 3 "5,x,7"
           [["5"]]%char ["x"]%char [["7"]]%char invalid_argument
           (mkKey (repeat 7 24)));
    [ reflexivity
    | repeat (apply Forall_cons; [token_ok|]); apply Forall_nil
    | reflexivity | left; discriminate | reflexivity | cbn; lia | key_ok ].
Defined.

(** Two slots, and a text that goes on after the second token. *)
Lemma setFromString_ignores_rest_witness :
  exists k',
    setFromString LittleEndian 2 "1,2,zzz,,4" (mkKey (repeat 7 16)) = Normal tt k'
    /\ setFromString LittleEndian 2 "1,2" (mkKey (repeat 7 16)) = Normal tt k'
    /\ setFromString_count LittleEndian 2 "1,2,zzz,,4" (mkKey (repeat 7 16))
       = Normal 2%nat k'.
Proof.
  apply (setFromString_ignores_rest LittleEndian 2 "1,2,zzz,,4" "1,2"
           [["1"]; ["2"]]%char (list_ascii_of_string "zzz,,4")
           (mkKey (repeat 7 16)));
    [ reflexivity | reflexivity
    | repeat (apply Forall_cons; [token_ok|]); apply Forall_nil
    | reflexivity | lia | key_ok ].
Defined.

Lemma fresh_key_is_least_witness :
  exists fresh,
    GenericKey_ctor 1 (mkKey (repeat 77 8)) = Normal tt fresh
    /\ GenericComparator 1 (mkKey [0; 0; 0; 0; 0; 0; 0; 1]) fresh = false
    /\ (GenericComparator 1 fresh (mkKey [0; 0; 0; 0; 0; 0; 0; 1]) = false ->
        data (mkKey [0; 0; 0; 0; 0; 0; 0; 1]) = data fresh).
Proof.
  apply (fresh_key_is_least 1 (mkKey (repeat 77 8))
           (mkKey [0; 0; 0; 0; 0; 0; 0; 1]));
    key_ok.
Defined.

(** * Examples

    The scenarios of the specification, evaluated. *)

(** Signed 32-bit -5 and 3 at offset 0 of one-slot keys. *)
Example AddInteger_minus_five :
  AddInteger LittleEndian int32_t (-5) 0 (mkKey (repeat 0 8))
  = Normal tt (mkKey [127; 255; 255; 251; 0; 0; 0; 0]).
Proof. reflexivity. Qed.

Example AddInteger_three :
  AddInteger LittleEndian int32_t 3 0 (mkKey (repeat 0 8))
  = Normal tt (mkKey [128; 0; 0; 3; 0; 0; 0; 0]).
Proof. reflexivity. Qed.

Example Compare_minus_five_three :
  (Compare 1 (mkKey [127; 255; 255; 251; 0; 0; 0; 0])
             (mkKey [128; 0; 0; 3; 0; 0; 0; 0]) <? 0) = true.
Proof. reflexivity. Qed.

(** Around zero and at the ends of the range, one byte wide. *)
Example encode_int8_landmarks :
  map (encode int8_t) [min_value int8_t; -1; 0; 1; max_value int8_t]
  = [[0]; [127]; [128]; [129]; [255]].
Proof. reflexivity. Qed.

Example AddInteger_int64_extremes :
  AddInteger BigEndian int64_t (min_value int64_t) 0 (mkKey (repeat 7 8))
  = Normal tt (mkKey (repeat 0 8))
  /\ AddInteger BigEndian int64_t (max_value int64_t) 0 (mkKey (repeat 7 8))
     = Normal tt (mkKey (repeat 255 8)).
Proof. split; reflexivity. Qed.

(** Unsigned 64-bit 100 and 200 at offset 8 of two-slot keys. *)
Example Compare_unsigned_slot_one :
  exists ka kb,
    AddUnsignedInteger LittleEndian uint64_t 100 8 (mkKey (repeat 0 16)) = Normal tt ka
    /\ AddUnsignedInteger LittleEndian uint64_t 200 8 (mkKey (repeat 0 16)) = Normal tt kb
    /\ (Compare 2 ka kb <? 0) = true.
Proof. eexists; eexists; repeat split. Qed.

(** "1,2,3" into a three-slot key; a fourth token is not read. *)
Example setFromString_three_slots :
  setFromString LittleEndian 3 "1,2,3,x" (mkKey (repeat 7 24))
  = Normal tt (mkKey [0; 0; 0; 0; 0; 0; 0; 1;
                      0; 0; 0; 0; 0; 0; 0; 2;
                      0; 0; 0; 0; 0; 0; 0; 3]).
Proof. reflexivity. Qed.

(** A token that is not a number: [stoul] throws after the first slot was
    packed; the key stays zeroed beyond it. *)
Example setFromString_malformed :
  setFromString LittleEndian 2 "258,,3" (mkKey (repeat 7 16))
  = Raised invalid_argument
      (mkKey [0; 0; 0; 0; 0; 0; 1; 2; 0; 0; 0; 0; 0; 0; 0; 0]).
Proof. reflexivity. Qed.

(** Access outside the array is undefined: a read that ends past the last
    byte, and the first store of [setFromString] when there is no slot. *)
Example GetInteger_out_of_bounds :
  GetInteger LittleEndian int32_t 5 (mkKey (repeat 0 8)) = Undefined.
Proof. reflexivity. Qed.

Example setFromString_no_slot :
  setFromString LittleEndian 0 "1" (mkKey []) = Undefined.
Proof. reflexivity. Qed.
